(** * graphql-codegen: the type-resolution and template-dispatch engine

    A shallow embedding of [codegen/codegen.go].  Go maps are stdpp [gmap]s,
    nil-able pointers are [option]s, a nil dereference is a panic, and the
    order in which a [range] statement visits a map is drawn from the
    runtime's random source, which is threaded through as explicit state. *)

From Stdlib Require Import String Ascii List Arith Lia.
From stdpp Require Import base option list strings gmap fin_maps.

Set Warnings "-register-all".

Open Scope string_scope.

(** ** The schema view: [introspection.Type] and [introspection.Field]

    The generator reads a schema type only through [Kind()], [Name()],
    [Description()], [OfType()], [Fields()] and [PossibleTypes()]; the four
    pointer-valued accessors may answer nil. *)
Module introspection.

Record Field (T : Type) : Type := mkField {
  FName : string;
  FDescription : option string;
  FType : T
}.
Arguments mkField {T} _ _ _.
Arguments FName {T} _.
Arguments FDescription {T} _.
Arguments FType {T} _.

Inductive Type_ : Type := mkType {
  Kind : string;
  Name : option string;
  Description : option string;
  OfType : option Type_;
  Fields : option (list (Field Type_));
  PossibleTypes : option (list Type_)
}.

(** A named type without fields, and the two wrapper shapes. *)
Definition named (kind name : string) : Type_ :=
  mkType kind (Some name) None None None None.
Definition listOf (t : Type_) : Type_ :=
  mkType "LIST" None None (Some t) None None.
Definition nonNull (t : Type_) : Type_ :=
  mkType "NON_NULL" None None (Some t) None None.

End introspection.
Import introspection.

(** ** The scalar table *)

Record typeConfig : Type := mkTypeConfig {
  ignore : bool;
  goType : string;
  importPath : string
}.

(** The quotation mark, needed inside the import path of [ID]. *)
Definition dquote : string := String (ascii_of_nat 34) EmptyString.

Definition internalTypeConfigEntries : list (string * typeConfig) :=
  [ ("SCALAR",  mkTypeConfig true "" "");
    ("Boolean", mkTypeConfig true "bool" "");
    ("Float",   mkTypeConfig true "float64" "");
    ("Int",     mkTypeConfig true "int32" "");
    ("ID",      mkTypeConfig true "graphql.ID"
                  ("graphql " +:+ dquote +:+ "github.com/neelance/graphql-go" +:+ dquote));
    ("String",  mkTypeConfig true "string" "") ].

Definition internalTypeConfig : gmap string typeConfig :=
  list_to_map internalTypeConfigEntries.

(** ** Type Expression Builder: [getTypeName]

    [getTypeName_check tp typ] is the code from the label [check:] on, with
    the cursor at [tp] and the accumulator at [typ]; the [goto] is the
    recursive call, and the LIST test is written out once for each outcome
    of the NON_NULL test.  The cursor is never tested against nil in the
    source: [Kind()] on a nil cursor and [*name] on a nil name panic, which
    is the answer [None] here.  The parameter [conf] is never read by
    [getTypeName] and [getImports] and is left out. *)
Definition getTypeName_base (name : option string) (typ : string) : option string :=
  match name with
  | None => None
  | Some n =>
      match internalTypeConfig !! n with
      | Some val => Some (typ +:+ goType val)
      | None => Some (typ +:+ n +:+ "Resolver")
      end
  end.

Fixpoint getTypeName_check (tp : Type_) (typ : string) {struct tp} : option string :=
  if Kind tp =? "NON_NULL" then
    (* tp = tp.OfType(), accumulator untouched *)
    match OfType tp with
    | None => None
    | Some tp1 =>
        if Kind tp1 =? "LIST" then
          match OfType tp1 with
          | None => None
          | Some tp2 => getTypeName_check tp2 (typ +:+ "[]")
          end
        else getTypeName_base (Name tp1) typ
    end
  else
    (* typ = typ + "*", cursor untouched *)
    if Kind tp =? "LIST" then
      match OfType tp with
      | None => None
      | Some tp2 => getTypeName_check tp2 ((typ +:+ "*") +:+ "[]")
      end
    else getTypeName_base (Name tp) (typ +:+ "*").

Definition getTypeName (tp : Type_) : option string := getTypeName_check tp "".

(** The second half of a round: what follows the NON_NULL test. *)
Definition getTypeName_listStage (tp : Type_) (typ : string) : option string :=
  if Kind tp =? "LIST" then
    match OfType tp with
    | None => None
    | Some tp2 => getTypeName_check tp2 (typ +:+ "[]")
    end
  else getTypeName_base (Name tp) typ.

(** Lines 228-233. *)
Definition getPointer (typeName : string) (fp : Field Type_) : string :=
  if Kind (FType fp) =? "NON_NULL" then typeName else "*" +:+ typeName.

(** ** Import Aggregator: [getImports] and [removeDuplicates] *)

Fixpoint getImports (tp : Type_) : list string :=
  match
    match Name tp with
    | Some name => internalTypeConfig !! name
    | None => None
    end
  with
  | Some val => [importPath val]
  | None =>
      match OfType tp with
      | Some inner => getImports inner
      | None => []
      end
  end.

Fixpoint removeDuplicates_loop (a result : list string) (seen : gmap string string)
    : list string :=
  match a with
  | [] => result
  | val :: rest =>
      match seen !! val with
      | None => removeDuplicates_loop rest (result ++ [val]) (<[val := val]> seen)
      | Some _ => removeDuplicates_loop rest result seen
      end
  end.

Definition removeDuplicates (a : list string) : list string :=
  removeDuplicates_loop a [] ∅.

(** The loop invariant: [seen] holds exactly the strings of [result], and
    [result] has no repeats. *)
Definition seenMatches (result : list string) (seen : gmap string string) : Prop :=
  NoDup result ∧ ∀ x, x ∈ result ↔ is_Some (seen !! x).

(** ** Strings: the pieces of [strings] and [fmt] the generator calls

    GraphQL names are made of ASCII letters, digits and underscores, so
    [strings.ToLower] is modelled on ASCII letters. *)
Definition lowerAscii (c : ascii) : ascii :=
  let n := nat_of_ascii c in
  if ((65 <=? n) && (n <=? 90))%nat then ascii_of_nat (n + 32) else c.

Fixpoint ToLower (s : string) : string :=
  match s with
  | EmptyString => EmptyString
  | String c r => String (lowerAscii c) (ToLower r)
  end.

Definition HasPrefix (s pre : string) : bool := String.prefix pre s.

Fixpoint inCutset (cutset : string) (c : ascii) : bool :=
  match cutset with
  | EmptyString => false
  | String d r => Ascii.eqb c d || inCutset r c
  end.

Fixpoint TrimLeft (s cutset : string) : string :=
  match s with
  | EmptyString => EmptyString
  | String c r => if inCutset cutset c then TrimLeft r cutset else s
  end.

Fixpoint TrimRight (s cutset : string) : string :=
  match s with
  | EmptyString => EmptyString
  | String c r =>
      match TrimRight r cutset with
      | EmptyString => if inCutset cutset c then EmptyString else String c EmptyString
      | r' => String c r'
      end
  end.

Definition Trim (s cutset : string) : string := TrimRight (TrimLeft s cutset) cutset.

(** Space and tab, the cutset of the two [strings.Trim] calls. *)
Definition spaceTab : string := String (ascii_of_nat 32) (String (ascii_of_nat 9) EmptyString).

(** ** Naming Transform: [capitalise] and [unCapitalise]

    [str[0]] on the empty string is an index out of range, a panic ([None]).
    As for [ToLower], [strings.ToUpper] is modelled on ASCII letters; the
    properties of the two functions are stated for ASCII strings. *)
Definition upperAscii (c : ascii) : ascii :=
  let n := nat_of_ascii c in
  if ((97 <=? n) && (n <=? 122))%nat then ascii_of_nat (n - 32) else c.

Fixpoint ToUpper (s : string) : string :=
  match s with
  | EmptyString => EmptyString
  | String c r => String (upperAscii c) (ToUpper r)
  end.

Fixpoint isAscii (s : string) : bool :=
  match s with
  | EmptyString => true
  | String c r => (nat_of_ascii c <? 128)%nat && isAscii r
  end.

Definition capitalise (str : string) : option string :=
  if ToLower str =? "id" then Some "ID"
  else
    match str with
    | EmptyString => None
    | String c rest => Some (ToUpper (String c EmptyString) +:+ rest)
    end.

Definition unCapitalise (str : string) : option string :=
  match str with
  | EmptyString => None
  | String c rest => Some (ToLower (String c EmptyString) +:+ rest)
  end.

(** ** The runtime: panics and the order of [range] over a map

    A computation reads the random source the Go runtime seeds map iterators
    with and may panic.  [None] is a panic; Go's multiple return values,
    errors included, are ordinary results. *)
Definition M (A : Type) : Type := list nat → option (A * list nat).

Definition ret {A} (a : A) : M A := λ s, Some (a, s).

Definition bind {A B} (m : M A) (k : A → M B) : M B :=
  λ s, match m s with
       | Some (a, s') => k a s'
       | None => None
       end.

Notation "x <~ m ;; k" := (bind m (λ x, k))
  (at level 100, m at next level, right associativity).

(** [*p]: a nil pointer panics. *)
Definition deref {A} (p : option A) : M A :=
  λ s, match p with
       | Some a => Some (a, s)
       | None => None
       end.

(** [shuffle seed l] picks the arrangement of [l] numbered [seed]: the head
    goes to position [seed mod length], the rest is arranged by the quotient. *)
Fixpoint shuffle {A} (seed : nat) (l : list A) : list A :=
  match l with
  | [] => []
  | x :: r =>
      let n := S (length r) in
      let r' := shuffle (seed / n) r in
      take (seed mod n) r' ++ x :: drop (seed mod n) r'
  end.

(** [for k, v := range m]: the entries of [m] in the order chosen by the next
    number of the random source (0 once the source is used up). *)
Definition range {V} (m : gmap string V) : M (list (string * V)) :=
  λ s, match s with
       | [] => Some (shuffle 0 (map_to_list m), [])
       | seed :: s' => Some (shuffle seed (map_to_list m), s')
       end.

(** [post m Q]: unless it panics, [m] answers a result that satisfies [Q]. *)
Definition post {A} (m : M A) (Q : A → Prop) : Prop :=
  ∀ s, match m s with
       | Some (a, _) => Q a
       | None => True
       end.

(** [seedfree m]: what [m] answers does not depend on the random source. *)
Definition seedfree {A} (m : M A) : Prop :=
  ∀ s1 s2, fst <$> m s1 = fst <$> m s2.

Definition error : Type := string.

(** ** Configuration *)
Module config.
Section Config.
Context {Value : Type}.

(** Modelled from the spec: package [config] is not among the sources.  A
  FieldConfig maps template-variant names to parameter bags; a TypeConfig
  has such a mapping and a mapping from field names to FieldConfigs.  A
  nil map is the empty map. *)
Record FieldConfig : Type := mkFieldConfig {
PropTemplate : gmap string (gmap string Value)
}.

Record TypeConfig : Type := mkTypeConfig {
Template : gmap string (gmap string Value);
Field : gmap string FieldConfig
}.

(** [Types] is the Go field [Type]. *)
Record Config : Type := mkConfig {
Types : gmap string TypeConfig
}.

(** [m[k]] on a Go map answers the zero value for a missing key. *)
Definition zeroFieldConfig : FieldConfig := mkFieldConfig ∅.
Definition zeroTypeConfig : TypeConfig := mkTypeConfig ∅ ∅.
End Config.
Arguments FieldConfig : clear implicits.
Arguments TypeConfig : clear implicits.
Arguments Config : clear implicits.
End config.

(** ** Templates and the collaborators *)
Module codegenTemplate.
(** Modelled from the spec: package [template] of the repository is not
    among the sources.  A lookup answers the literal template bodies of a
    named variant: one body at entity scope, a declaration body and a
    method body at field scope. *)
Record TypeTemplate : Type := mkTypeTemplate {
  TypeTemplateText : string
}.
Record PropertyTemplate : Type := mkPropertyTemplate {
  FieldTemplate : string;
  MethodTemplate : string
}.
End codegenTemplate.
Import codegenTemplate.

Section Generator.
Context {Value Template : Type}.

Abbreviation Config := (config.Config Value).
Abbreviation TypeConfig := (config.TypeConfig Value).
Abbreviation FieldConfig := (config.FieldConfig Value).

(** The [interface{}] values the generator puts into a template context. *)
Inductive Data : Type :=
| DString (s : string)
| DStringPtr (p : option string)
| DStrings (l : list string)
| DConfig (c : Config)
| DParams (m : gmap string Value).

(** What the generator calls and does not define in [codegen.go].
    [ParseSchema] is [graphql.ParseSchema] followed by [Inspect().Types()];
    [Parse name text] is [template.New(name).Funcs(templateFunMap).Parse(text)];
    [Execute tmpl ctx] answers the text written to the buffer and the error,
    if any, that stopped the rendering. *)
Record Collaborators : Type := mkCollaborators {
  ParseSchema : string → error + list Type_;
  GetTypeTemplate : string → error + TypeTemplate;
  GetPropertyTemplate : string → error + PropertyTemplate;
  Parse : string → string → error + Template;
  Execute : Template → gmap string Data → string * option error;
  FormatCode : string → string * option error
}.

Variable env : Collaborators.

(** *** Field Renderer *)

Definition fieldContext (fp : Field Type_) (tp : Type_) (conf : Config)
    (fieldTypeName : string) (templateConfig : gmap string Value) : gmap string Data :=
  <["TypeKind" := DString (Kind tp)]>
  (<["FieldName" := DString (FName fp)]>
  (<["FieldDescription" := DStringPtr (FDescription fp)]>
  (<["FieldType" := DString fieldTypeName]>
  (<["Config" := DConfig conf]>
  (<["TemplateConfig" := DParams templateConfig]> ∅))))).

Definition methodContext (fp : Field Type_) (tp : Type_) (typeName : string)
    (conf : Config) (fieldTypeName : string) (templateConfig : gmap string Value)
    : gmap string Data :=
  <["TypeKind" := DString (Kind tp)]>
  (<["TypeName" := DString typeName]>
  (<["MethodName" := DString (FName fp)]>
  (<["MethodReturnType" := DString fieldTypeName]>
  (<["MethodReturn" := DString (FName fp)]>
  (<["Config" := DConfig conf]>
  (<["TemplateConfig" := DParams templateConfig]> ∅)))))).

(** Lines 116-119 and 180-183: no configured variant means one variant
    [default] with an empty parameter bag. *)
Definition withDefault (t : gmap string (gmap string Value))
    : gmap string (gmap string Value) :=
  if decide (size t = 0) then <["default" := ∅]> ∅ else t.

(** The body of the loop of lines 185-223, once per variant in the order
    given; the two buffers and [imports] are the loop's state. *)
Fixpoint generateField_loop (fp : Field Type_) (tp : Type_) (typeName : string)
    (conf : Config) (variants : list (string * gmap string Value))
    (fieldCode methodCode : string) (imports : list string)
    : M (string * string * list string * option error) :=
  match variants with
  | [] => ret (fieldCode, methodCode, imports, None)
  | (templateName, templateConfig) :: rest =>
      match GetPropertyTemplate env templateName with
      | inl err => ret ("", "", [], Some err)
      | inr propTemplate =>
          match Parse env templateName (Trim (FieldTemplate propTemplate) spaceTab) with
          | inl err => ret ("", "", [], Some err)
          | inr tmpl =>
              fieldTypeName <~ deref (getTypeName (FType fp)) ;;
              let fieldCode' := fieldCode +:+
                fst (Execute env tmpl (fieldContext fp tp conf fieldTypeName templateConfig)) in
              match Parse env templateName (MethodTemplate propTemplate) with
              | inl err => ret ("", "", [], Some err)
              | inr tmpl' =>
                  let methodCode' := methodCode +:+
                    fst (Execute env tmpl'
                           (methodContext fp tp typeName conf fieldTypeName templateConfig)) in
                  generateField_loop fp tp typeName conf rest fieldCode' methodCode'
                    (imports ++ getImports (FType fp))
              end
          end
      end
  end.

Definition generateField (fp : Field Type_) (tp : Type_) (typeConf : TypeConfig)
    (conf : Config) : M (string * string * list string * option error) :=
  let name := FName fp in
  typeName <~ deref (Name tp) ;;
  let propConf := default config.zeroFieldConfig (config.Field typeConf !! name) in
  variants <~ range (withDefault (config.PropTemplate propConf)) ;;
  generateField_loop fp tp typeName conf variants "" "" [].

(** *** Type Renderer *)

Definition returnString (strPtr : option string) : string :=
  match strPtr with
  | Some str => str
  | None => ""
  end.

(** Lines 137-146: every field in order; the first error ends the loop. *)
Fixpoint generateType_fields (ifields : list (Field Type_)) (tp : Type_)
    (typeConf : TypeConfig) (conf : Config) (fields methods imports : list string)
    : M (list string * list string * list string * option error) :=
  match ifields with
  | [] => ret (fields, methods, imports, None)
  | fp :: rest =>
      r <~ generateField fp tp typeConf conf ;;
      match r with
      | (_, _, _, Some err) => ret ([], [], [], Some err)
      | (fieldCode, methodCode, fieldImports, None) =>
          generateType_fields rest tp typeConf conf
            (fields ++ [fieldCode]) (methods ++ [methodCode]) (imports ++ fieldImports)
      end
  end.

(** Lines 148-154. *)
Fixpoint possibleTypeNames (l : list Type_) : M (list string) :=
  match l with
  | [] => ret []
  | t :: rest =>
      n <~ deref (Name t) ;;
      ns <~ possibleTypeNames rest ;;
      ret (n :: ns)
  end.

Definition typeContext (tp : Type_) (name : string) (conf : Config)
    (possibleTypes fields methods imports : list string) : gmap string Data :=
  <["Kind" := DString (Kind tp)]>
  (<["PossibleTypes" := DStrings possibleTypes]>
  (<["TypeName" := DString name]>
  (<["TypeDescription" := DString (returnString (Description tp))]>
  (<["Config" := DConfig conf]>
  (<["Fields" := DStrings fields]>
  (<["Methods" := DStrings methods]>
  (<["Imports" := DStrings (removeDuplicates imports)]> ∅))))))).

(** The loop of lines 121-166 followed by lines 168-169; [buf] is the
    buffer all variants write to. *)
Fixpoint generateType_loop (tp : Type_) (name : string) (typeConf : TypeConfig)
    (conf : Config) (variants : list (string * gmap string Value)) (buf : string)
    : M (string * option error) :=
  match variants with
  | [] => ret (FormatCode env buf)
  | (templateName, _) :: rest =>
      match GetTypeTemplate env templateName with
      | inl err => ret ("", Some err)
      | inr typeTemplate =>
          match Parse env templateName (Trim (TypeTemplateText typeTemplate) spaceTab) with
          | inl err => ret ("", Some err)
          | inr tmpl =>
              ifields <~ deref (Fields tp) ;;
              r <~ generateType_fields ifields tp typeConf conf [] [] [] ;;
              match r with
              | (_, _, _, Some err) => ret ("", Some err)
              | (fields, methods, imports, None) =>
                  possibleTypes <~ match PossibleTypes tp with
                                   | Some l => possibleTypeNames l
                                   | None => ret []
                                   end ;;
                  let out := fst (Execute env tmpl
                    (typeContext tp name conf possibleTypes fields methods imports)) in
                  generateType_loop tp name typeConf conf rest (buf +:+ out)
              end
          end
      end
  end.

Definition generateType (tp : Type_) (conf : Config) : M (string * option error) :=
  name <~ deref (Name tp) ;;
  let typeConf := default config.zeroTypeConfig (config.Types conf !! name) in
  let typeConf := config.mkTypeConfig (withDefault (config.Template typeConf))
                    (config.Field typeConf) in
  variants <~ range (config.Template typeConf) ;;
  generateType_loop tp name typeConf conf variants "".

(** *** Generation Driver *)

Definition unsupportedKind (kind : string) : bool :=
  (kind =? "ENUM") || (kind =? "INPUT_OBJECT") || (kind =? "UNION").

Definition fileNameOf (name : string) : string := ToLower name +:+ "_gen.go".

(** The loop of lines 72-98 and the return of line 100.  The two
    [log.Printf] calls write to the log only and are left out. *)
Fixpoint Generate_loop (types : list Type_) (conf : Config) (results : gmap string string)
    : M (option (gmap string string) * option error) :=
  match types with
  | [] => ret (Some results, None)
  | qlType :: rest =>
      name <~ deref (Name qlType) ;;
      if HasPrefix name "_" then Generate_loop rest conf results
      else if ignore (default (mkTypeConfig false "" "") (internalTypeConfig !! name))
      then Generate_loop rest conf results
      else
        let fileName := fileNameOf name in
        if unsupportedKind (Kind qlType)
        then Generate_loop rest conf (<[fileName := ""]> results)
        else
          r <~ generateType qlType conf ;;
          match r with
          | (_, Some err) => ret (None, Some err)
          | (code, None) => Generate_loop rest conf (<[fileName := code]> results)
          end
  end.

Definition Generate (graphSchema : string) (conf : Config)
    : M (option (gmap string string) * option error) :=
  match ParseSchema env graphSchema with
  | inl err => ret (None, Some err)
  | inr types => Generate_loop types conf ∅
  end.

(** *** Vocabulary for the properties *)

(** The entity passes the two filters of lines 74-80. *)
Definition passesFilters (tp : Type_) (name : string) : Prop :=
  Name tp = Some name ∧ HasPrefix name "_" = false ∧
  ignore (default (mkTypeConfig false "" "") (internalTypeConfig !! name)) = false.


(** [e] is an error value one of the collaborators answers. *)
Definition collaboratorError (e : error) : Prop :=
  (∃ text, ParseSchema env text = inl e) ∨
  (∃ v, GetTypeTemplate env v = inl e) ∨
  (∃ v, GetPropertyTemplate env v = inl e) ∨
  (∃ name text, Parse env name text = inl e) ∨
  (∃ code, snd (FormatCode env code) = Some e).

(** No entity and no field is configured with more than one variant. *)
Definition atMostOneVariant (conf : Config) : Prop :=
  ∀ name typeConf, config.Types conf !! name = Some typeConf →
    (size (config.Template typeConf) ≤ 1)%nat ∧
    ∀ f propConf, config.Field typeConf !! f = Some propConf →
      (size (config.PropTemplate propConf) ≤ 1)%nat.

(** Errors name the entity at fault: some reading of the error value alone
    gives, for every failed run over a one-entity catalogue, the name of that
    entity. *)
Definition errorsLocateEntity : Prop :=
  ∃ locate : error → string,
    ∀ schema conf s tp name err s',
      ParseSchema env schema = inr [tp] → Name tp = Some name →
      Generate schema conf s = Some ((None, Some err), s') →
      locate err = name.

(** The same collaborators with every execution error erased. *)
Definition silenced : Collaborators :=
  mkCollaborators (ParseSchema env) (GetTypeTemplate env) (GetPropertyTemplate env)
    (Parse env) (λ tmpl ctx, (fst (Execute env tmpl ctx), None)) (FormatCode env).

End Generator.

(** The outcome of a run as a caller reads it: the entries of the mapping and
    the error. *)
Definition entries (r : option ((option (gmap string string) * option error) * list nat))
    : option (option (list (string * string)) * option error) :=
  match r with
  | Some ((Some m, e), _) => Some (Some (map_to_list m), e)
  | Some ((None, e), _) => Some (None, e)
  | None => None
  end.
(** ** Wrapper chains *)

Definition isWrapper (kind : string) : bool := (kind =? "LIST") || (kind =? "NON_NULL").

(** [chainTo ok t]: peeling wrapper layers off [t], each with an inner type,
    ends in a type that is no wrapper and satisfies [ok]. *)
Inductive chainTo (ok : Type_ → Prop) : Type_ → Prop :=
| chain_base t : isWrapper (Kind t) = false → ok t → chainTo ok t
| chain_wrap t inner :
    isWrapper (Kind t) = true → OfType t = Some inner → chainTo ok inner → chainTo ok t.

(** The invariant of the data model: a wrapper has an inner type, the type a
    chain ends in has a name. *)
Definition schemaInvariant : Type_ → Prop := chainTo (λ t, is_Some (Name t)).

(** A chain that ends in a type without a name. *)
Definition namelessBase : Type_ → Prop := chainTo (λ t, Name t = None).

(** No NON_NULL layer sits directly on another NON_NULL layer (the GraphQL
    type grammar has no such type). *)
Fixpoint noNonNullOfNonNull (t : Type_) : Prop :=
  match OfType t with
  | None => True
  | Some inner =>
      ¬ (Kind t = "NON_NULL" ∧ Kind inner = "NON_NULL") ∧ noNonNullOfNonNull inner
  end.

(** [baseName t n]: the first named type met from [t] inwards is named [n]. *)
Inductive baseName : Type_ → string → Prop :=
| base_here t n : Name t = Some n → baseName t n
| base_inner t inner n :
    Name t = None → OfType t = Some inner → baseName inner n → baseName t n.

(** The built-in scalars of the table that declare no import path. *)
Definition noImportScalars : list string := ["SCALAR"; "Boolean"; "Float"; "Int"; "String"].

(** *** Wrapper stacks

    The wrapper layers of a type reference, outermost first, and the type
    they make around a base type. *)
Inductive layer : Type := ListLayer | NonNullLayer.

Fixpoint wrap (ws : list layer) (base : Type_) : Type_ :=
  match ws with
  | [] => base
  | ListLayer :: rest => listOf (wrap rest base)
  | NonNullLayer :: rest => nonNull (wrap rest base)
  end.

(** No two NON_NULL layers in a row. *)
Fixpoint properStack (ws : list layer) : bool :=
  match ws with
  | NonNullLayer :: ((NonNullLayer :: _) as rest) => false
  | _ :: rest => properStack rest
  | [] => true
  end.

Definition endsNonNull (ws : list layer) : bool :=
  match last ws with
  | Some NonNullLayer => true
  | _ => false
  end.

(** The markers of a stack as the grammar of the output reads them: a list
    layer gives [], and every layer that is not under a NON_NULL layer is
    preceded by a star. *)
Fixpoint stackMarkers (ws : list layer) : string :=
  match ws with
  | [] => ""
  | ListLayer :: rest => "*[]" +:+ stackMarkers rest
  | NonNullLayer :: ListLayer :: rest => "[]" +:+ stackMarkers rest
  | NonNullLayer :: rest => stackMarkers rest
  end.

(** The expression of a named base type: the table's Go type, or the name
    with the resolver suffix. *)
Definition baseExpression (name : string) : string :=
  match internalTypeConfig !! name with
  | Some val => goType val
  | None => name +:+ "Resolver"
  end.

(** An entity the driver does not hand to the Type Renderer. *)
Definition notRendered (tp : Type_) : Prop :=
  ∃ name, Name tp = Some name ∧
    (HasPrefix name "_" = true ∨
     ignore (default (mkTypeConfig false "" "") (internalTypeConfig !! name)) = true ∨
     unsupportedKind (Kind tp) = true).

(** ** Fixtures

    A small stand-in for the collaborators, enough to run the generator on
    concrete schemas.  A template body is literal text with actions of the
    form {{.A.B}}: the action prints the value found by walking from the
    context entry A into field or key B, as text/template does, and fails at
    execution time when a step has no such field, as in {{.TypeName.Missing}}
    (a field of a string).  Pipelines and control actions are outside the
    stand-in, whose parser refuses them.  The formatter hands its input
    back. *)
Module Fixtures.

Definition tString := named "SCALAR" "String".
Definition tID := named "SCALAR" "ID".
Definition tBoolean := named "SCALAR" "Boolean".

Definition object (name : string) (fields : list (Field Type_)) : Type_ :=
  mkType "OBJECT" (Some name) None None (Some fields) None.
Definition enum (name : string) : Type_ :=
  mkType "ENUM" (Some name) None None None None.

(** Go values as a template prints them and walks into them. *)
Inductive GoVal : Type :=
| GString (s : string)
| GStrings (l : list string)
| GNil
| GNoValue
| GMap (zero : GoVal) (entries : list (string * GoVal))
| GStruct (fields : list (string * GoVal)).

Fixpoint insertEntry {A} (kv : string * A) (l : list (string * A)) : list (string * A) :=
  match l with
  | [] => [kv]
  | x :: r => if String.leb (fst kv) (fst x) then kv :: l else x :: insertEntry kv r
  end.

(** The entries of a map by ascending key, the order maps are printed in. *)
Definition sortedEntries {A} (m : gmap string A) : list (string * A) :=
  foldr insertEntry [] (map_to_list m).

Definition mapToGo {A} (zero : GoVal) (f : A → GoVal) (m : gmap string A) : GoVal :=
  GMap zero ((λ kv, (fst kv, f (snd kv))) <$> sortedEntries m).

Definition bagToGo : gmap string string → GoVal := mapToGo GNoValue GString.

Definition variantsToGo : gmap string (gmap string string) → GoVal :=
  mapToGo (GMap GNoValue []) bagToGo.

Definition fieldConfigToGo (fc : config.FieldConfig string) : GoVal :=
  GStruct [("Template", variantsToGo (config.PropTemplate fc))].

Definition typeConfigToGo (tc : config.TypeConfig string) : GoVal :=
  GStruct [("Template", variantsToGo (config.Template tc));
           ("Field", mapToGo (fieldConfigToGo config.zeroFieldConfig) fieldConfigToGo
                       (config.Field tc))].

Definition configToGo (c : config.Config string) : GoVal :=
  GStruct [("Type", mapToGo (typeConfigToGo config.zeroTypeConfig) typeConfigToGo
                      (config.Types c))].

Definition dataToGo (d : @Data string) : GoVal :=
  match d with
  | DString v => GString v
  | DStringPtr (Some v) => GString v
  | DStringPtr None => GNil
  | DStrings l => GStrings l
  | DConfig c => configToGo c
  | DParams m => bagToGo m
  end.

Fixpoint assocGet (k : string) (l : list (string * GoVal)) : option GoVal :=
  match l with
  | [] => None
  | (k', v) :: r => if k =? k' then Some v else assocGet k r
  end.

(** [.A.B.C]: a field of a struct, an entry of a map (its zero value when
    the key is missing); anything else has no fields. *)
Fixpoint evalPath (path : list string) (v : GoVal) : error + GoVal :=
  match path with
  | [] => inr v
  | f :: rest =>
      match v with
      | GStruct fields =>
          match assocGet f fields with
          | Some v' => evalPath rest v'
          | None => inl ("template: can't evaluate field " +:+ f +:+ " in type struct")
          end
      | GMap zero entries => evalPath rest (default zero (assocGet f entries))
      | GString _ => inl ("template: can't evaluate field " +:+ f +:+ " in type string")
      | GStrings _ => inl ("template: can't evaluate field " +:+ f +:+ " in type []string")
      | GNil | GNoValue => inl ("template: nil pointer evaluating " +:+ f)
      end
  end.

Fixpoint printGo (v : GoVal) : string :=
  match v with
  | GString s => s
  | GStrings l => "[" +:+ String.concat " " l +:+ "]"
  | GNil => "<nil>"
  | GNoValue => "<no value>"
  | GMap _ entries =>
      "map[" +:+ String.concat " " ((λ kv, fst kv +:+ ":" +:+ printGo (snd kv)) <$> entries)
      +:+ "]"
  | GStruct fields =>
      "{" +:+ String.concat " " ((λ kv, printGo (snd kv)) <$> fields) +:+ "}"
  end.

(** A parsed template: literal text and actions, each action a path. *)
Inductive Seg : Type :=
| Lit (text : string)
| Action (path : list string).

Definition Tmpl : Type := list Seg.

Fixpoint splitPath (key acc : string) : list string :=
  match key with
  | EmptyString => [acc]
  | String c r =>
      if Ascii.eqb c "."%char then acc :: splitPath r "" else splitPath r (acc +:+ String c "")
  end.

Definition litSeg (acc : string) (rest : list Seg) : list Seg :=
  if acc =? "" then rest else Lit acc :: rest.

(** [None]: an action that is not closed, or one outside the stand-in. *)
Fixpoint parseSegs (inAction : bool) (acc : string) (s : string) {struct s}
    : option (list Seg) :=
  match s with
  | EmptyString => if inAction then None else Some (litSeg acc [])
  | String c r =>
      if inAction then
        match s with
        | String "}" (String "}" r') =>
            if existsb (λ f, f =? "") (splitPath acc "") then None
            else cons (Action (splitPath acc "")) <$> parseSegs false "" r'
        | _ => parseSegs true (acc +:+ String c "") r
        end
      else
        match s with
        | String "{" (String "{" (String "." r')) => litSeg acc <$> parseSegs true "" r'
        | String "{" (String "{" _) => None
        | _ => parseSegs false (acc +:+ String c "") r
        end
  end.

Definition parseTmpl (name text : string) : error + Tmpl :=
  match parseSegs false "" text with
  | Some segs => inr segs
  | None => inl ("template: " +:+ name +:+ ": bad action")
  end.

(** Rendering stops at the first action that fails; the text written before
    it stays in the buffer. *)
Fixpoint executeSegs (segs : list Seg) (ctx : gmap string (@Data string)) (out : string)
    : string * option error :=
  match segs with
  | [] => (out, None)
  | Lit text :: rest => executeSegs rest ctx (out +:+ text)
  | Action path :: rest =>
      match
        match path with
        | [] => inr GNoValue
        | k :: fields =>
            evalPath fields (match ctx !! k with Some d => dataToGo d | None => GNoValue end)
        end
      with
      | inl err => (out, Some err)
      | inr v => executeSegs rest ctx (out +:+ printGo v)
      end
  end.

Definition executeTmpl (tmpl : Tmpl) (ctx : gmap string (@Data string))
    : string * option error :=
  executeSegs tmpl ctx "".

Definition typeTemplates (name : string) : error + TypeTemplate :=
  if name =? "default" then inr (mkTypeTemplate "  {{.TypeName}}")
  else if name =? "a" then inr (mkTypeTemplate "A")
  else if name =? "b" then inr (mkTypeTemplate "B")
  else if name =? "broken" then inr (mkTypeTemplate "package gen {{.TypeName.Missing}}")
  else inl ("template not found: " +:+ name).

Definition propertyTemplates (name : string) : error + PropertyTemplate :=
  if name =? "default" then inr (mkPropertyTemplate "{{.FieldType}}" "{{.MethodName}}")
  else inl ("template not found: " +:+ name).

Definition postFields : list (Field Type_) :=
  [ mkField "id" None (nonNull tID);
    mkField "tags" None (listOf (nonNull tString));
    mkField "author" None tID ].

Definition schemas (text : string) : error + list Type_ :=
  if text =? "type Post { id: ID! tags: [String!] author: ID }" then
    inr [ tBoolean; tID;
          object "Post" [ mkField "id" None (nonNull tID);
                          mkField "tags" None (listOf (nonNull tString));
                          mkField "author" None tID ];
          tString; named "OBJECT" "__Schema" ]
  else if text =? "enum Status { ON OFF }" then
    inr [ tBoolean; tID; enum "Status"; tString; named "OBJECT" "__Schema" ]
  else if text =? "type Post { }" then inr [ object "Post" [] ]
  else if text =? "type User { }" then inr [ object "User" [] ]
  else if text =? "type Flag { on: Boolean }" then
    inr [ object "Flag" [ mkField "on" None tBoolean ] ]
  else inl "graphql: syntax error".

Definition env : @Collaborators string Tmpl :=
  mkCollaborators schemas typeTemplates propertyTemplates parseTmpl executeTmpl
    (λ code, (code, None)).

(** A configuration with the given variants for one entity. *)
Definition confFor (entity : string) (variants : list string) : config.Config string :=
  config.mkConfig
    (<[entity := config.mkTypeConfig (list_to_map ((λ v, (v, ∅)) <$> variants)) ∅]> ∅).

Definition noConf : config.Config string := config.mkConfig ∅.

(** Post and User both ask for the variant nope, which no template has. *)
Definition confNope : config.Config string :=
  config.mkConfig
    (<["Post" := config.mkTypeConfig (<["nope" := ∅]> ∅) ∅]>
    (<["User" := config.mkTypeConfig (<["nope" := ∅]> ∅) ∅]> ∅)).

End Fixtures.
Import Fixtures.

(** Two more fixtures: a catalogue with two entities whose names differ only
    in letter case, and a configuration with a known and an unknown variant
    for the field id of Post. *)
Definition envCase : @Collaborators string Tmpl :=
  mkCollaborators (λ _, inr [object "Post" []; object "POST" []])
    typeTemplates propertyTemplates parseTmpl executeTmpl (λ code, (code, None)).

Definition typeConfIdNope : config.TypeConfig string :=
  config.mkTypeConfig ∅
    (<["id" := config.mkFieldConfig (<["default" := ∅]> (<["nope" := ∅]> ∅))]> ∅).

(** * Properties *)

(** ** Strings *)

Lemma append_cons (x : ascii) (a b : string) : String x a +:+ b = String x (a +:+ b).
Proof. reflexivity. Qed.

Lemma append_assoc (a b c : string) : (a +:+ b) +:+ c = a +:+ (b +:+ c).
Proof.
  induction a as [|x a IH]; [reflexivity|].
  rewrite !append_cons. f_equal. exact IH.
Qed.

Lemma append_nil_r (a : string) : a +:+ "" = a.
Proof.
  induction a as [|x a IH]; [reflexivity|].
  rewrite append_cons. f_equal. exact IH.
Qed.

(** ** Induction along [OfType] *)

Lemma Type_ofType_ind (P : Type_ → Prop) :
  (∀ t, (∀ inner, OfType t = Some inner → P inner) → P t) → ∀ t, P t.
Proof.
  intros step. fix IH 1. intros [k n d o f p]. apply step. simpl.
  destruct o as [inner|]; intros inner' E.
  - injection E as <-. apply IH.
  - discriminate E.
Qed.

(** [getTypeName] looks two layers down in one round. *)
Lemma Type_ofType_ind2 (P : Type_ → Prop) :
  (∀ t, (∀ inner, OfType t = Some inner → P inner) →
        (∀ inner inner2, OfType t = Some inner → OfType inner = Some inner2 → P inner2) →
        P t) →
  ∀ t, P t.
Proof.
  intros step.
  assert (H : ∀ t, P t ∧ ∀ inner, OfType t = Some inner → P inner).
  { induction t as [t IH] using Type_ofType_ind.
    assert (Hin : ∀ inner, OfType t = Some inner → P inner)
      by (intros inner E; exact (proj1 (IH inner E))).
    split; [|exact Hin].
    apply step; [exact Hin|].
    intros inner inner2 E1 E2. exact (proj2 (IH inner E1) inner2 E2). }
  intros t. exact (proj1 (H t)).
Qed.

(** ** getTypeName *)

Lemma getTypeName_base_acc name typ :
  getTypeName_base name typ = (λ s, typ +:+ s) <$> getTypeName_base name "".
Proof.
  unfold getTypeName_base. destruct name as [n|]; [|reflexivity].
  destruct (internalTypeConfig !! n); reflexivity.
Qed.

Lemma fmap_prefix_compose (a b : string) (o : option string) :
  (λ s, a +:+ s) <$> ((λ s, b +:+ s) <$> o) = (λ s, (a +:+ b) +:+ s) <$> o.
Proof. destruct o; simpl; [now rewrite append_assoc | reflexivity]. Qed.

(** The accumulator is a prefix of the result and nothing else depends on it. *)
Lemma getTypeName_check_acc t :
  ∀ typ, getTypeName_check t typ = (λ s, typ +:+ s) <$> getTypeName_check t "".
Proof.
  induction t as [t IH1 IH2] using Type_ofType_ind2. intros typ.
  destruct t as [k n d o f p]. simpl in *.
  destruct (k =? "NON_NULL").
  - destruct o as [[k1 n1 d1 o1 f1 p1]|]; [|reflexivity]. simpl.
    destruct (k1 =? "LIST").
    + destruct o1 as [t2|]; [|reflexivity].
      pose proof (IH2 _ t2 eq_refl eq_refl) as IH. 
      rewrite (IH (typ +:+ "[]")), (IH ("" +:+ "[]")), fmap_prefix_compose. reflexivity.
    + apply getTypeName_base_acc.
  - destruct (k =? "LIST").
    + destruct o as [t2|]; [|reflexivity].
      pose proof (IH1 t2 eq_refl) as IH.
      rewrite (IH ((typ +:+ "*") +:+ "[]")), (IH (("" +:+ "*") +:+ "[]")), fmap_prefix_compose.
      now rewrite !append_assoc.
    + rewrite getTypeName_base_acc, (getTypeName_base_acc _ ("" +:+ "*")), fmap_prefix_compose.
      reflexivity.
Qed.

Lemma getTypeName_listOf t typ :
  getTypeName_check (listOf t) typ = getTypeName_check t (typ +:+ "*[]").
Proof. simpl. now rewrite append_assoc. Qed.

Lemma getTypeName_nonNull_listOf t typ :
  getTypeName_check (nonNull (listOf t)) typ = getTypeName_check t (typ +:+ "[]").
Proof. reflexivity. Qed.

Lemma getTypeName_check_unfold t typ :
  getTypeName_check t typ =
    if Kind t =? "NON_NULL" then
      match OfType t with
      | None => None
      | Some t1 => getTypeName_listStage t1 typ
      end
    else getTypeName_listStage t (typ +:+ "*").
Proof. destruct t as [k n d o f p]. reflexivity. Qed.

Lemma isWrapper_true k : isWrapper k = true → k = "LIST" ∨ k = "NON_NULL".
Proof.
  unfold isWrapper. intros H. apply orb_true_iff in H as [H|H];
    apply String.eqb_eq in H; auto.
Qed.

Lemma isWrapper_false k : isWrapper k = false → (k =? "LIST") = false ∧ (k =? "NON_NULL") = false.
Proof. unfold isWrapper. intros H. now apply orb_false_iff in H. Qed.

(** On a chain without NON_NULL directly on NON_NULL the rounds reach the
    type the chain ends in, and the result is decided by its name alone. *)
Lemma getTypeName_reaches_base ok t :
  chainTo ok t → noNonNullOfNonNull t →
  (∃ b markers, ok b ∧ ∀ typ, getTypeName_check t typ = getTypeName_base (Name b) (typ +:+ markers)) ∧
  (Kind t ≠ "NON_NULL" →
   ∃ b markers, ok b ∧ ∀ typ, getTypeName_listStage t typ = getTypeName_base (Name b) (typ +:+ markers)).
Proof.
  induction 1 as [t Hk Hok | t inner Hk Ho Hc IH]; intros Hnn.
  - apply isWrapper_false in Hk as [HL HN].
    assert (S2 : ∀ typ, getTypeName_listStage t typ = getTypeName_base (Name t) (typ +:+ "")).
    { intros typ. unfold getTypeName_listStage. now rewrite HL, append_nil_r. }
    split.
    + exists t, "*". split; [exact Hok|]. intros typ.
      rewrite getTypeName_check_unfold, HN, S2. now rewrite append_nil_r.
    + intros _. exists t, "". split; [exact Hok | exact S2].
  - assert (Hnn' : ¬ (Kind t = "NON_NULL" ∧ Kind inner = "NON_NULL") ∧ noNonNullOfNonNull inner).
    { destruct t as [k n d o f p]. simpl in *. subst o. exact Hnn. }
    destruct Hnn' as [Hnot Hnn']. destruct (IH Hnn') as [IHc IHl].
    apply isWrapper_true in Hk as [Hk|Hk].
    + assert (S2 : ∃ b markers, ok b ∧
                ∀ typ, getTypeName_listStage t typ = getTypeName_base (Name b) (typ +:+ markers)).
      { destruct IHc as (b & mk & Hb & E). exists b, ("[]" +:+ mk). split; [exact Hb|].
        intros typ. unfold getTypeName_listStage. rewrite Hk, Ho. simpl.
        now rewrite E, append_assoc. }
      split; [|intros _; exact S2].
      destruct S2 as (b & mk & Hb & E). exists b, ("*" +:+ mk). split; [exact Hb|].
      intros typ. rewrite getTypeName_check_unfold, Hk. simpl.
      now rewrite E, append_assoc.
    + split; [|intros Hne; contradiction].
      destruct IHl as (b & mk & Hb & E).
      { intros Hi. apply Hnot. split; assumption. }
      exists b, mk. split; [exact Hb|]. intros typ.
      rewrite getTypeName_check_unfold, Hk, Ho. simpl. apply E.
Qed.

Lemma getTypeName_base_is_Some name typ :
  is_Some name → is_Some (getTypeName_base name typ).
Proof.
  intros [n ->]. unfold getTypeName_base.
  destruct (internalTypeConfig !! n); eauto.
Qed.

(** C2: markers are appended to the accumulator layer by layer, from the
    outermost wrapper inwards, and every LIST unwrap jumps back to the
    NON_NULL test.  For the String scalar, a non-null list of non-null String
    resolves to []string, a list of non-null String to *[]string and a
    non-null list of String to []*string; the three texts differ pairwise. *)
Theorem getTypeName_wrapper_order :
  getTypeName (nonNull (listOf (nonNull tString))) = Some "[]string" ∧
  getTypeName (listOf (nonNull tString)) = Some "*[]string" ∧
  getTypeName (nonNull (listOf tString)) = Some "[]*string" ∧
  ("[]string" ≠ "*[]string" ∧ "[]string" ≠ "[]*string" ∧ "*[]string" ≠ "[]*string") ∧
  (∀ t typ, getTypeName_check (listOf t) typ = getTypeName_check t (typ +:+ "*[]")) ∧
  (∀ t typ, getTypeName_check (nonNull (listOf t)) typ = getTypeName_check t (typ +:+ "[]")) ∧
  (∀ t typ, getTypeName_check t typ = (λ s, typ +:+ s) <$> getTypeName_check t "").
Proof.
  repeat split; try (vm_compute; reflexivity); try discriminate.
  - apply getTypeName_listOf.
  - intros t typ. apply getTypeName_check_acc.
Qed.

(** C7 as stated fails: a NON_NULL layer directly on a NON_NULL layer meets
    the precondition, yet the round stops at the inner wrapper, which has no
    name. *)
Lemma getTypeName_invariant_not_enough :
  ¬ (∀ t, schemaInvariant t → is_Some (getTypeName t)).
Proof.
  intros H. specialize (H (nonNull (nonNull tString))).
  assert (W : schemaInvariant (nonNull (nonNull tString))).
  { eapply chain_wrap; [reflexivity | reflexivity |].
    eapply chain_wrap; [reflexivity | reflexivity |].
    apply chain_base; [reflexivity | eexists; reflexivity]. }
  destruct (H W) as [s E]. vm_compute in E. discriminate E.
Qed.

(** C7, amended: when every wrapper has an inner type, no NON_NULL layer sits
    directly on a NON_NULL layer and the chain ends in a named type,
    getTypeName returns a type expression; when such a chain ends in a type
    without a name, getTypeName panics. *)
Theorem getTypeName_completes t :
  noNonNullOfNonNull t →
  (schemaInvariant t → is_Some (getTypeName t)) ∧
  (namelessBase t → getTypeName t = None).
Proof.
  intros Hnn. split; intros Hc.
  - destruct (getTypeName_reaches_base _ t Hc Hnn) as [(b & mk & Hb & E) _].
    unfold getTypeName. rewrite E. now apply getTypeName_base_is_Some.
  - destruct (getTypeName_reaches_base _ t Hc Hnn) as [(b & mk & Hb & E) _].
    unfold getTypeName. rewrite E. simpl in Hb. now rewrite Hb.
Qed.

Lemma getTypeName_completes_witness :
  is_Some (getTypeName (listOf (nonNull (named "OBJECT" "Post")))) ∧
  getTypeName (nonNull (listOf (mkType "OBJECT" None None None None None))) = None.
Proof.
  split.
  - apply (getTypeName_completes (listOf (nonNull (named "OBJECT" "Post")))).
    + simpl. repeat split; intros [? ?]; discriminate.
    + eapply chain_wrap; [reflexivity | reflexivity |].
      eapply chain_wrap; [reflexivity | reflexivity |].
      apply chain_base; [reflexivity | eexists; reflexivity].
  - apply (getTypeName_completes (nonNull (listOf (mkType "OBJECT" None None None None None)))).
    + simpl. repeat split; intros [? ?]; discriminate.
    + eapply chain_wrap; [reflexivity | reflexivity |].
      eapply chain_wrap; [reflexivity | reflexivity |].
      apply chain_base; reflexivity.
Defined.

(** ** removeDuplicates *)

Lemma seenMatches_empty : seenMatches [] ∅.
Proof.
  split; [constructor|]. intros x. rewrite lookup_empty. split.
  - intros H. inversion H.
  - intros [? H]. discriminate H.
Qed.

Lemma seenMatches_insert result seen val :
  seenMatches result seen → seen !! val = None →
  seenMatches (result ++ [val]) (<[val := val]> seen).
Proof.
  intros [ND I] Hn. split.
  - apply NoDup_app. split; [exact ND|]. split; [|apply NoDup_singleton].
    intros x Hx Hx'. apply list_elem_of_singleton in Hx'. subst x.
    apply I in Hx. rewrite Hn in Hx. destruct Hx as [? Hx]. discriminate Hx.
  - intros x. rewrite elem_of_app, list_elem_of_singleton, lookup_insert.
    case_decide as E.
    + subst. split; eauto.
    + rewrite I. split; [intros [H|H]; [exact H | congruence] | auto].
Qed.

Lemma removeDuplicates_loop_spec a :
  ∀ result seen, seenMatches result seen →
    NoDup (removeDuplicates_loop a result seen) ∧
    ∀ x, x ∈ removeDuplicates_loop a result seen ↔ x ∈ result ∨ x ∈ a.
Proof.
  induction a as [|val rest IH]; intros result seen Inv; simpl.
  - split; [exact (proj1 Inv)|]. intros x. rewrite elem_of_nil. tauto.
  - destruct (seen !! val) as [v|] eqn:E.
    + destruct (IH _ _ Inv) as [ND M]. split; [exact ND|].
      intros x. rewrite M, elem_of_cons. split; [tauto|].
      intros [H|[->|H]]; auto. left. apply (proj2 Inv). eauto.
    + destruct (IH _ _ (seenMatches_insert _ _ _ Inv E)) as [ND M]. split; [exact ND|].
      intros x. rewrite M, elem_of_app, list_elem_of_singleton, elem_of_cons. tauto.
Qed.

Lemma removeDuplicates_loop_snoc a x :
  ∀ result seen, seenMatches result seen →
    removeDuplicates_loop (a ++ [x]) result seen =
      if decide (x ∈ removeDuplicates_loop a result seen)
      then removeDuplicates_loop a result seen
      else (removeDuplicates_loop a result seen ++ [x])%list.
Proof.
  induction a as [|val rest IH]; intros result seen Inv; simpl.
  - destruct (seen !! x) as [v|] eqn:E; case_decide as D; try reflexivity.
    + exfalso. apply D. apply (proj2 Inv). eauto.
    + exfalso. apply (proj2 Inv) in D. rewrite E in D. destruct D as [? D]. discriminate D.
  - destruct (seen !! val) as [v|] eqn:E.
    + apply IH, Inv.
    + apply IH, seenMatches_insert; assumption.
Qed.

Lemma removeDuplicates_NoDup a : NoDup (removeDuplicates a).
Proof. apply removeDuplicates_loop_spec, seenMatches_empty. Qed.

Lemma removeDuplicates_elem a x : x ∈ removeDuplicates a ↔ x ∈ a.
Proof.
  unfold removeDuplicates.
  rewrite (proj2 (removeDuplicates_loop_spec a [] ∅ seenMatches_empty) x), elem_of_nil.
  tauto.
Qed.

Lemma removeDuplicates_snoc a x :
  removeDuplicates (a ++ [x]) =
    if decide (x ∈ a) then removeDuplicates a else (removeDuplicates a ++ [x])%list.
Proof.
  unfold removeDuplicates.
  rewrite removeDuplicates_loop_snoc by apply seenMatches_empty.
  fold (removeDuplicates a).
  destruct (decide (x ∈ removeDuplicates a)) as [D|D], (decide (x ∈ a)) as [D'|D'];
    try reflexivity; exfalso.
  - apply D'. now apply removeDuplicates_elem.
  - apply D. now apply removeDuplicates_elem.
Qed.

Lemma removeDuplicates_count a x :
  x ∈ a → count_occ string_dec (removeDuplicates a) x = 1.
Proof.
  intros H. apply NoDup_count_occ'.
  - apply NoDup_ListNoDup, removeDuplicates_NoDup.
  - apply list_elem_of_In, removeDuplicates_elem, H.
Qed.

(** ** getImports *)

Lemma getImports_baseName t n val :
  baseName t n → internalTypeConfig !! n = Some val → getImports t = [importPath val].
Proof.
  induction 1 as [t n Hn | t inner n Hn Ho Hb IH]; intros Hv;
    destruct t as [k nm d o f p]; simpl in *; subst.
  - now rewrite Hv.
  - now apply IH.
Qed.

Lemma noImportScalars_lookup n :
  n ∈ noImportScalars → ∃ val, internalTypeConfig !! n = Some val ∧ importPath val = "".
Proof.
  unfold noImportScalars. intros H.
  repeat (apply elem_of_cons in H as [->|H]; [eexists; split; vm_compute; reflexivity|]).
  inversion H.
Qed.

(** ** The runtime *)

Lemma shuffle_Permutation {A} (l : list A) : ∀ seed, shuffle seed l ≡ₚ l.
Proof.
  induction l as [|x r IH]; intros seed; simpl; [reflexivity|].
  rewrite <- Permutation_middle, take_drop. now rewrite IH.
Qed.

Lemma shuffle_length {A} (l : list A) seed : length (shuffle seed l) = length l.
Proof. apply Permutation_length, shuffle_Permutation. Qed.

Lemma shuffle_elem {A} (l : list A) seed x : x ∈ shuffle seed l ↔ x ∈ l.
Proof. now rewrite shuffle_Permutation. Qed.

Lemma shuffle_cons {A} (seed : nat) (x : A) (r : list A) :
  shuffle seed (x :: r) =
    (take (seed mod S (length r)) (shuffle (seed / S (length r)) r) ++
     x :: drop (seed mod S (length r)) (shuffle (seed / S (length r)) r))%list.
Proof. reflexivity. Qed.

(** Every order of the entries is the choice of some number. *)
Lemma shuffle_reaches_every_order {A} (l : list A) :
  ∀ l', l' ≡ₚ l → ∃ seed, shuffle seed l = l'.
Proof.
  induction l as [|x r IH]; intros l' Hp.
  - apply Permutation_nil_r in Hp. subst. now exists 0.
  - assert (Hx : x ∈ l') by (rewrite Hp; apply list_elem_of_here).
    apply list_elem_of_split in Hx as (l1 & l2 & ->).
    rewrite <- Permutation_middle in Hp. apply Permutation_cons_inv in Hp.
    destruct (IH _ Hp) as [seed' E].
    assert (Hlen : (length l1 < S (length r))%nat).
    { apply Permutation_length in Hp. rewrite length_app in Hp. lia. }
    exists (length l1 + seed' * S (length r)). rewrite shuffle_cons.
    rewrite Nat.Div0.mod_add, (Nat.mod_small _ _ Hlen).
    rewrite Nat.div_add by lia. rewrite (Nat.div_small _ _ Hlen). simpl (0 + seed').
    rewrite E. rewrite take_app_length, drop_app_length. reflexivity.
Qed.

(** With at most one entry there is one order only. *)
Lemma shuffle_short {A} (l : list A) seed : (length l ≤ 1)%nat → shuffle seed l = l.
Proof.
  destruct l as [|x [|y r]]; simpl; intros H; try reflexivity; try lia.
  all: now rewrite take_nil, drop_nil.
Qed.

Lemma post_ret {A} (a : A) (Q : A → Prop) : Q a → post (ret a) Q.
Proof. intros H s. exact H. Qed.

Lemma post_bind {A B} (m : M A) (k : A → M B) (P : A → Prop) (Q : B → Prop) :
  post m P → (∀ a, P a → post (k a) Q) → post (bind m k) Q.
Proof.
  intros Hm Hk s. unfold bind. specialize (Hm s).
  destruct (m s) as [[a s']|]; [|exact I]. apply (Hk a Hm s').
Qed.

Lemma post_bind_any {A B} (m : M A) (k : A → M B) (Q : B → Prop) :
  (∀ a, post (k a) Q) → post (bind m k) Q.
Proof. intros Hk. apply (post_bind m k (λ _, True)); [intros s; now destruct (m s) as [[? ?]|] | auto]. Qed.



Lemma post_weaken {A} (m : M A) (P Q : A → Prop) :
  post m P → (∀ a, P a → Q a) → post m Q.
Proof. intros Hm HPQ s. specialize (Hm s). destruct (m s) as [[a ?]|]; auto. Qed.

Lemma bind_ext {A B} (m m' : M A) (k k' : A → M B) s :
  (∀ s0, m s0 = m' s0) → (∀ a s0, k a s0 = k' a s0) → bind m k s = bind m' k' s.
Proof.
  intros Hm Hk. unfold bind. rewrite Hm. destruct (m' s) as [[a s1]|]; [apply Hk | reflexivity].
Qed.

Lemma seedfree_ret {A} (a : A) : seedfree (ret a).
Proof. intros s1 s2. reflexivity. Qed.

Lemma seedfree_deref {A} (p : option A) : seedfree (deref p).
Proof. intros s1 s2. unfold deref. now destruct p. Qed.

Lemma seedfree_bind {A B} (m : M A) (k : A → M B) :
  seedfree m → (∀ a, seedfree (k a)) → seedfree (bind m k).
Proof.
  intros Hm Hk s1 s2. unfold bind. specialize (Hm s1 s2).
  destruct (m s1) as [[a1 t1]|], (m s2) as [[a2 t2]|]; simpl in Hm; try discriminate Hm.
  - injection Hm as ->. apply Hk.
  - reflexivity.
Qed.

Lemma seedfree_range {V} (m : gmap string V) : (size m ≤ 1)%nat → seedfree (range m).
Proof.
  intros H s1 s2. unfold range.
  assert (L : ∀ seed, shuffle seed (map_to_list m) = map_to_list m).
  { intros seed. apply shuffle_short. now rewrite length_map_to_list. }
  destruct s1, s2; simpl; now rewrite !L.
Qed.

Section GeneratorFacts.
Context {Value Template : Type}.
Variable env : @Collaborators Value Template.

Abbreviation Bag := (gmap string Value).

(** *** Default normalisation *)

Lemma withDefault_empty (t : gmap string Bag) :
  size t = 0 → map_to_list (withDefault t) = [("default", ∅)].
Proof.
  intros H. unfold withDefault. rewrite decide_True by exact H.
  rewrite insert_empty. apply map_to_list_singleton.
Qed.


Lemma withDefault_size (t : gmap string Bag) : (1 ≤ size (withDefault t))%nat.
Proof.
  unfold withDefault. case_decide as H; [|lia].
  rewrite insert_empty, map_size_singleton. lia.
Qed.

Lemma range_withDefault_empty (t : gmap string Bag) s :
  size t = 0 → range (withDefault t) s = Some ([("default", ∅)], tail s).
Proof.
  intros H. unfold range. rewrite (withDefault_empty t H).
  destruct s; reflexivity.
Qed.

(** With no configured variant the variant loops run over the single entry
    default, whatever the random source says. *)
Lemma default_variant_loop :
  (∀ tp conf name s,
      Name tp = Some name →
      size (config.Template (default config.zeroTypeConfig (config.Types conf !! name))) = 0 →
      generateType env tp conf s =
        generateType_loop env tp name
          (config.mkTypeConfig (<["default" := ∅]> ∅)
             (config.Field (default config.zeroTypeConfig (config.Types conf !! name))))
          conf [("default", ∅)] "" (tail s)) ∧
  (∀ fp tp typeConf conf typeName s,
      Name tp = Some typeName →
      size (config.PropTemplate
              (default config.zeroFieldConfig (config.Field typeConf !! FName fp))) = 0 →
      generateField env fp tp typeConf conf s =
        generateField_loop env fp tp typeName conf [("default", ∅)] "" "" [] (tail s)).
Proof.
  split.
  - intros tp conf name s Hn Hz. unfold generateType, bind, deref. rewrite Hn. simpl.
    rewrite (range_withDefault_empty _ s Hz).
    unfold withDefault. now rewrite decide_True by exact Hz.
  - intros fp tp typeConf conf typeName s Hn Hz. unfold generateField, bind, deref.
    rewrite Hn. now rewrite (range_withDefault_empty _ s Hz).
Qed.

(** C8: an entity, and likewise a field, whose configuration declares no
    template variant is rendered for exactly one variant, named default,
    with an empty parameter bag.  For the entity: the template default is
    looked up and parsed once, the fields are rendered, and the one
    execution of that template on the entity's context is what goes to the
    formatter.  For the field: the declaration and method templates of
    default are each executed once, on contexts whose TemplateConfig is the
    empty bag, and the field's imports are collected once. *)
Theorem default_variant_rendered :
  (∀ tp conf name s,
      Name tp = Some name →
      size (config.Template (default config.zeroTypeConfig (config.Types conf !! name))) = 0 →
      generateType env tp conf s =
        match GetTypeTemplate env "default" with
        | inl err => Some (("", Some err), tail s)
        | inr typeTemplate =>
            match Parse env "default" (Trim (TypeTemplateText typeTemplate) spaceTab) with
            | inl err => Some (("", Some err), tail s)
            | inr tmpl =>
                match Fields tp with
                | None => None
                | Some ifields =>
                    match generateType_fields env ifields tp
                            (config.mkTypeConfig (<["default" := ∅]> ∅)
                               (config.Field
                                  (default config.zeroTypeConfig (config.Types conf !! name))))
                            conf [] [] [] (tail s)
                    with
                    | None => None
                    | Some ((_, _, _, Some err), s1) => Some (("", Some err), s1)
                    | Some ((fields, methods, imports, None), s1) =>
                        match
                          match PossibleTypes tp with
                          | Some l => possibleTypeNames l s1
                          | None => Some ([], s1)
                          end
                        with
                        | None => None
                        | Some (possibleTypes, s2) =>
                            Some (FormatCode env
                                    (fst (Execute env tmpl
                                            (typeContext tp name conf possibleTypes
                                               fields methods imports))),
                                  s2)
                        end
                    end
                end
            end
        end) ∧
  (∀ fp tp typeConf conf typeName s,
      Name tp = Some typeName →
      size (config.PropTemplate
              (default config.zeroFieldConfig (config.Field typeConf !! FName fp))) = 0 →
      generateField env fp tp typeConf conf s =
        match GetPropertyTemplate env "default" with
        | inl err => Some (("", "", [], Some err), tail s)
        | inr propTemplate =>
            match Parse env "default" (Trim (FieldTemplate propTemplate) spaceTab) with
            | inl err => Some (("", "", [], Some err), tail s)
            | inr tmpl =>
                match getTypeName (FType fp) with
                | None => None
                | Some fieldTypeName =>
                    match Parse env "default" (MethodTemplate propTemplate) with
                    | inl err => Some (("", "", [], Some err), tail s)
                    | inr tmpl' =>
                        Some ((fst (Execute env tmpl
                                      (fieldContext fp tp conf fieldTypeName ∅)),
                               fst (Execute env tmpl'
                                      (methodContext fp tp typeName conf fieldTypeName ∅)),
                               getImports (FType fp),
                               None),
                              tail s)
                    end
                end
            end
        end).
Proof.
  split.
  - intros tp conf name s Hn Hz.
    rewrite (proj1 default_variant_loop tp conf name s Hn Hz). simpl.
    destruct (GetTypeTemplate env "default") as [err|tt]; [reflexivity|].
    destruct (Parse env "default" (Trim (TypeTemplateText tt) spaceTab)) as [err|tmpl];
      [reflexivity|].
    unfold bind, deref. destruct (Fields tp) as [ifields|]; [|reflexivity].
    destruct (generateType_fields env ifields tp _ conf [] [] [] (tail s))
      as [[[[[fs ms] imps] [err|]] s1]|]; try reflexivity.
    destruct (PossibleTypes tp) as [l|].
    + destruct (possibleTypeNames l s1) as [[pts s2]|]; reflexivity.
    + reflexivity.
  - intros fp tp typeConf conf typeName s Hn Hz.
    rewrite (proj2 default_variant_loop fp tp typeConf conf typeName s Hn Hz). simpl.
    destruct (GetPropertyTemplate env "default") as [err|pt]; [reflexivity|].
    destruct (Parse env "default" (Trim (FieldTemplate pt) spaceTab)) as [err|tmpl];
      [reflexivity|].
    unfold bind, deref. destruct (getTypeName (FType fp)) as [ftn|]; [|reflexivity].
    destruct (Parse env "default" (MethodTemplate pt)) as [err|tmpl']; reflexivity.
Qed.

(** *** The imports a successful field loop hands to the entity template *)

Lemma generateField_loop_imports fp tp typeName conf variants :
  ∀ fieldCode methodCode imports s fc mc imps s',
    generateField_loop env fp tp typeName conf variants fieldCode methodCode imports s
      = Some ((fc, mc, imps, None), s') →
    imps = (imports ++ concat (replicate (length variants) (getImports (FType fp))))%list.
Proof.
  induction variants as [|[templateName templateConfig] rest IH];
    intros fieldCode methodCode imports s fc mc imps s' E; simpl in E.
  - injection E as <- <- <- <-. simpl. now rewrite app_nil_r.
  - destruct (GetPropertyTemplate env templateName) as [err|pt]; [discriminate E|].
    destruct (Parse env templateName _) as [err|tmpl]; [discriminate E|].
    unfold bind, deref in E.
    destruct (getTypeName (FType fp)) as [ftn|]; [|discriminate E].
    destruct (Parse env templateName _) as [err|tmpl']; [discriminate E|].
    apply IH in E. subst imps. simpl. now rewrite app_assoc.
Qed.

Lemma generateField_imports fp tp typeConf conf s fc mc imps s' :
  generateField env fp tp typeConf conf s = Some ((fc, mc, imps, None), s') →
  ∀ p, p ∈ getImports (FType fp) → p ∈ imps.
Proof.
  unfold generateField, bind, deref. destruct (Name tp) as [typeName|]; [|discriminate].
  set (t := withDefault _).
  assert (L : ∀ seed, (1 ≤ length (shuffle seed (map_to_list t)))%nat).
  { intros seed. rewrite shuffle_length, length_map_to_list. apply withDefault_size. }
  intros E p Hp.
  assert (∃ seed s0, generateField_loop env fp tp typeName conf (shuffle seed (map_to_list t))
                       "" "" [] s0 = Some ((fc, mc, imps, None), s')) as (seed & s0 & E').
  { unfold range in E. destruct s as [|seed s0]; eauto. }
  apply generateField_loop_imports in E'. subst imps. specialize (L seed).
  destruct (length (shuffle seed (map_to_list t))) as [|k]; [lia|].
  simpl. apply elem_of_app. now left.
Qed.

Lemma generateType_fields_imports ifields tp typeConf conf :
  ∀ fields methods imports s fs ms imps s',
    generateType_fields env ifields tp typeConf conf fields methods imports s
      = Some ((fs, ms, imps, None), s') →
    (∀ p, p ∈ imports → p ∈ imps) ∧
    (∀ fp p, fp ∈ ifields → p ∈ getImports (FType fp) → p ∈ imps).
Proof.
  induction ifields as [|fp0 rest IH]; intros fields methods imports s fs ms imps s' E;
    simpl in E.
  - injection E as <- <- <- <-. split; [auto|]. intros fp p H. inversion H.
  - unfold bind in E.
    destruct (generateField env fp0 tp typeConf conf s) as [[[[[fc mc] fi] [err|]] s1]|] eqn:EF;
      try discriminate E.
    apply IH in E as [E1 E2]. split.
    + intros p Hp. apply E1, elem_of_app. now left.
    + intros fp p Hfp Hp. apply elem_of_cons in Hfp as [->|Hfp]; [|eauto].
      apply E1, elem_of_app. right. eapply generateField_imports; eauto.
Qed.

Lemma typeContext_Imports tp name conf possibleTypes fields methods imports :
  typeContext (Value := Value) tp name conf possibleTypes fields methods imports !! "Imports"
    = Some (DStrings (removeDuplicates imports)).
Proof. reflexivity. Qed.

(** C9: removeDuplicates keeps every distinct string of its input once, in
    the order of first occurrence (scanning left to right, a string goes to
    the end of the result exactly when it has not occurred before); so the
    import path of a table scalar that any number of an entity's fields
    resolve to occurs once in the Imports value of the entity's context. *)
Theorem removeDuplicates_once :
  (∀ a, NoDup (removeDuplicates a)) ∧
  (∀ a x, x ∈ removeDuplicates a ↔ x ∈ a) ∧
  removeDuplicates [] = [] ∧
  (∀ a x, removeDuplicates (a ++ [x]) =
            if decide (x ∈ a) then removeDuplicates a else (removeDuplicates a ++ [x])%list) ∧
  (∀ ifields tp name typeConf conf possibleTypes s fields methods imports s' fp n val,
      generateType_fields env ifields tp typeConf conf [] [] [] s
        = Some ((fields, methods, imports, None), s') →
      fp ∈ ifields → baseName (FType fp) n → internalTypeConfig !! n = Some val →
      ∃ l, typeContext tp name conf possibleTypes fields methods imports !! "Imports"
             = Some (DStrings l) ∧
           count_occ string_dec l (importPath val) = 1).
Proof.
  split; [exact removeDuplicates_NoDup|].
  split; [exact removeDuplicates_elem|].
  split; [reflexivity|].
  split; [exact removeDuplicates_snoc|].
  intros ifields tp name typeConf conf possibleTypes s fields methods imports s' fp n val
    E Hfp Hb Hv.
  exists (removeDuplicates imports). split; [apply typeContext_Imports|].
  apply removeDuplicates_count.
  apply (proj2 (generateType_fields_imports _ _ _ _ _ _ _ _ _ _ _ _ E) fp); [exact Hfp|].
  rewrite (getImports_baseName _ _ _ Hb Hv). apply list_elem_of_singleton. reflexivity.
Qed.

(** C10: for a field whose base named type is one of SCALAR, Boolean, Float,
    Int and String, getImports answers the one-element list holding the
    empty string, and the Imports value of the context of an entity with
    such a field holds the empty string. *)
Theorem getImports_empty_string_entry :
  (∀ t n, baseName t n → n ∈ noImportScalars → getImports t = [""]) ∧
  (∀ ifields tp name typeConf conf possibleTypes s fields methods imports s' fp n,
      generateType_fields env ifields tp typeConf conf [] [] [] s
        = Some ((fields, methods, imports, None), s') →
      fp ∈ ifields → baseName (FType fp) n → n ∈ noImportScalars →
      ∃ l, typeContext tp name conf possibleTypes fields methods imports !! "Imports"
             = Some (DStrings l) ∧ "" ∈ l).
Proof.
  assert (G : ∀ t n, baseName t n → n ∈ noImportScalars → getImports t = [""]).
  { intros t n Hb Hn. destruct (noImportScalars_lookup n Hn) as (val & Hv & Hp).
    rewrite (getImports_baseName _ _ _ Hb Hv), Hp. reflexivity. }
  split; [exact G|].
  intros ifields tp name typeConf conf possibleTypes s fields methods imports s' fp n
    E Hfp Hb Hn.
  exists (removeDuplicates imports). split; [apply typeContext_Imports|].
  apply removeDuplicates_elem.
  apply (proj2 (generateType_fields_imports _ _ _ _ _ _ _ _ _ _ _ _ E) fp); [exact Hfp|].
  rewrite (G _ _ Hb Hn). apply list_elem_of_singleton. reflexivity.
Qed.

(** *** Unknown template variants *)










(** *** Where errors come from *)

Local Ltac from_collaborator :=
  solve [apply post_ret; simpl; intros ? [= <-]; unfold collaboratorError; eauto 10].

Local Ltac no_error := apply post_ret; simpl; intros ? [=].

Lemma generateField_loop_errors fp tp typeName conf variants :
  ∀ fieldCode methodCode imports,
    post (generateField_loop env fp tp typeName conf variants fieldCode methodCode imports)
      (λ r, ∀ e, snd r = Some e → collaboratorError env e).
Proof.
  induction variants as [|[templateName bag] rest IH]; intros fieldCode methodCode imports;
    simpl; [no_error|].
  destruct (GetPropertyTemplate env templateName) as [err|pt] eqn:EG; [from_collaborator|].
  destruct (Parse env templateName _) as [err|tmpl] eqn:EP.
  { from_collaborator. }
  apply post_bind_any. intros ftn.
  destruct (Parse env templateName (MethodTemplate pt)) as [err|tmpl'] eqn:EP'.
  { from_collaborator. }
  apply IH.
Qed.

Lemma generateField_errors fp tp typeConf conf :
  post (generateField env fp tp typeConf conf)
    (λ r, ∀ e, snd r = Some e → collaboratorError env e).
Proof.
  unfold generateField. apply post_bind_any. intros typeName.
  apply post_bind_any. intros variants. apply generateField_loop_errors.
Qed.

Lemma generateType_fields_errors ifields tp typeConf conf :
  ∀ fields methods imports,
    post (generateType_fields env ifields tp typeConf conf fields methods imports)
      (λ r, ∀ e, snd r = Some e → collaboratorError env e).
Proof.
  induction ifields as [|fp rest IH]; intros fields methods imports; simpl; [no_error|].
  eapply post_bind; [apply generateField_errors|].
  intros [[[fc mc] fi] [err|]] Hr; [|apply IH].
  apply post_ret. simpl. intros e [= <-]. now apply Hr.
Qed.

Lemma generateType_loop_errors tp name typeConf conf variants :
  ∀ buf, post (generateType_loop env tp name typeConf conf variants buf)
           (λ r, ∀ e, snd r = Some e → collaboratorError env e).
Proof.
  induction variants as [|[templateName bag] rest IH]; intros buf; simpl.
  - apply post_ret. intros e He. unfold collaboratorError. eauto 10.
  - destruct (GetTypeTemplate env templateName) as [err|tt] eqn:EG; [from_collaborator|].
    destruct (Parse env templateName _) as [err|tmpl] eqn:EP.
  { from_collaborator. }
    apply post_bind_any. intros ifields.
    eapply post_bind; [apply generateType_fields_errors|].
    intros [[[fs ms] imps] [err|]] Hr.
    + apply post_ret. simpl. intros e [= <-]. now apply Hr.
    + apply post_bind_any. intros pts. apply IH.
Qed.

Lemma generateType_errors tp conf :
  post (generateType env tp conf) (λ r, ∀ e, snd r = Some e → collaboratorError env e).
Proof.
  unfold generateType. apply post_bind_any. intros name.
  apply post_bind_any. intros variants. apply generateType_loop_errors.
Qed.

Lemma Generate_loop_errors types conf :
  ∀ results, post (Generate_loop env types conf results)
               (λ r, ∀ e, snd r = Some e → fst r = None ∧ collaboratorError env e).
Proof.
  induction types as [|qlType rest IH]; intros results; simpl; [no_error|].
  apply post_bind_any. intros name.
  destruct (HasPrefix name "_"); [apply IH|].
  destruct (ignore (default _ (internalTypeConfig !! name))); [apply IH|].
  destruct (unsupportedKind (Kind qlType)); [apply IH|].
  eapply post_bind; [apply generateType_errors|].
  intros [code [err|]] Hr; [|apply IH].
  apply post_ret. simpl. intros e [= <-]. split; [reflexivity | now apply Hr].
Qed.

(** C5, amended: an error Generate hands back comes with a nil mapping and
    is the very error value a collaborator answered (the schema parser, a
    template lookup, the template parser or the formatter). *)
Theorem errors_come_from_collaborators schema conf s m e s' :
  Generate env schema conf s = Some ((m, Some e), s') →
  m = None ∧ collaboratorError env e.
Proof.
  unfold Generate. destruct (ParseSchema env schema) as [err|types] eqn:EP.
  - intros [= <- <- <-]. split; [reflexivity|]. unfold collaboratorError. eauto.
  - intros E. pose proof (Generate_loop_errors types conf ∅ s) as H.
    rewrite E in H. now apply H.
Qed.

(** *** Runs that do not depend on the order of map iteration *)

Lemma withDefault_at_most_one (t : gmap string Bag) :
  (size t ≤ 1)%nat → (size (withDefault t) ≤ 1)%nat.
Proof.
  intros H. unfold withDefault. case_decide; [|exact H].
  now rewrite insert_empty, map_size_singleton.
Qed.

Lemma generateField_loop_seedfree fp tp typeName conf variants :
  ∀ fieldCode methodCode imports,
    seedfree (generateField_loop env fp tp typeName conf variants fieldCode methodCode imports).
Proof.
  induction variants as [|[templateName bag] rest IH]; intros fieldCode methodCode imports;
    simpl; [apply seedfree_ret|].
  destruct (GetPropertyTemplate env templateName) as [err|pt]; [apply seedfree_ret|].
  destruct (Parse env templateName (Trim (FieldTemplate pt) spaceTab)) as [err|tmpl];
    [apply seedfree_ret|].
  apply seedfree_bind; [apply seedfree_deref|]. intros ftn.
  destruct (Parse env templateName (MethodTemplate pt)) as [err|tmpl']; [apply seedfree_ret|].
  apply IH.
Qed.

Lemma generateField_seedfree fp tp (typeConf : config.TypeConfig Value) conf :
  (∀ f propConf, config.Field typeConf !! f = Some propConf →
     (size (config.PropTemplate propConf) ≤ 1)%nat) →
  seedfree (generateField env fp tp typeConf conf).
Proof.
  intros H. unfold generateField.
  apply seedfree_bind; [apply seedfree_deref|]. intros typeName.
  apply seedfree_bind; [|intros variants; apply generateField_loop_seedfree].
  apply seedfree_range, withDefault_at_most_one.
  destruct (config.Field typeConf !! FName fp) as [propConf|] eqn:E; simpl.
  - eapply H, E.
  - rewrite map_size_empty. lia.
Qed.

Lemma generateType_fields_seedfree ifields tp (typeConf : config.TypeConfig Value) conf :
  (∀ f propConf, config.Field typeConf !! f = Some propConf →
     (size (config.PropTemplate propConf) ≤ 1)%nat) →
  ∀ fields methods imports,
    seedfree (generateType_fields env ifields tp typeConf conf fields methods imports).
Proof.
  intros H. induction ifields as [|fp rest IH]; intros fields methods imports; simpl;
    [apply seedfree_ret|].
  apply seedfree_bind; [now apply generateField_seedfree|].
  intros [[[fc mc] fi] [err|]]; [apply seedfree_ret | apply IH].
Qed.

Lemma possibleTypeNames_seedfree l : seedfree (possibleTypeNames l).
Proof.
  induction l as [|t rest IH]; simpl; [apply seedfree_ret|].
  apply seedfree_bind; [apply seedfree_deref|]. intros n.
  apply seedfree_bind; [exact IH|]. intros ns. apply seedfree_ret.
Qed.

Lemma generateType_loop_seedfree tp name (typeConf : config.TypeConfig Value) conf variants :
  (∀ f propConf, config.Field typeConf !! f = Some propConf →
     (size (config.PropTemplate propConf) ≤ 1)%nat) →
  ∀ buf, seedfree (generateType_loop env tp name typeConf conf variants buf).
Proof.
  intros H. induction variants as [|[templateName bag] rest IH]; intros buf; simpl;
    [apply seedfree_ret|].
  destruct (GetTypeTemplate env templateName) as [err|tt]; [apply seedfree_ret|].
  destruct (Parse env templateName (Trim (TypeTemplateText tt) spaceTab)) as [err|tmpl];
    [apply seedfree_ret|].
  apply seedfree_bind; [apply seedfree_deref|]. intros ifields.
  apply seedfree_bind; [now apply generateType_fields_seedfree|].
  intros [[[fs ms] imps] [err|]]; [apply seedfree_ret|].
  apply seedfree_bind; [|intros pts; apply IH].
  destruct (PossibleTypes tp); [apply possibleTypeNames_seedfree | apply seedfree_ret].
Qed.

Lemma generateType_seedfree tp conf :
  atMostOneVariant conf → seedfree (generateType env tp conf).
Proof.
  intros H. unfold generateType.
  apply seedfree_bind; [apply seedfree_deref|]. intros name. simpl.
  destruct (config.Types conf !! name) as [typeConf|] eqn:E; simpl.
  - destruct (H name typeConf E) as [HT HF].
    apply seedfree_bind; [apply seedfree_range, withDefault_at_most_one, HT|].
    intros variants. apply generateType_loop_seedfree. exact HF.
  - apply seedfree_bind.
    + apply seedfree_range, withDefault_at_most_one. rewrite map_size_empty. lia.
    + intros variants. apply generateType_loop_seedfree. simpl.
      intros f propConf Hf. rewrite lookup_empty in Hf. discriminate Hf.
Qed.

Lemma Generate_loop_seedfree types conf :
  atMostOneVariant conf → ∀ results, seedfree (Generate_loop env types conf results).
Proof.
  intros H. induction types as [|qlType rest IH]; intros results; simpl;
    [apply seedfree_ret|].
  apply seedfree_bind; [apply seedfree_deref|]. intros name.
  destruct (HasPrefix name "_"); [apply IH|].
  destruct (ignore (default _ (internalTypeConfig !! name))); [apply IH|].
  destruct (unsupportedKind (Kind qlType)); [apply IH|].
  apply seedfree_bind; [now apply generateType_seedfree|].
  intros [code [err|]]; [apply seedfree_ret | apply IH].
Qed.

(** C6, amended: when no entity and no field is configured with more than
    one template variant, two runs on the same schema text and the same
    configuration end alike whatever order the runtime iterates maps in: both
    panic, or both hand back the same error, or both hand back the same
    mapping, hence the same text under every filename. *)
Theorem single_variant_runs_agree schema conf :
  atMostOneVariant conf →
  ∀ s1 s2, fst <$> Generate env schema conf s1 = fst <$> Generate env schema conf s2.
Proof.
  intros H. unfold Generate. destruct (ParseSchema env schema) as [err|types].
  - apply seedfree_ret.
  - now apply Generate_loop_seedfree.
Qed.

(** *** Execution errors *)

Lemma generateField_loop_silenced fp tp typeName conf variants :
  ∀ fieldCode methodCode imports s,
    generateField_loop env fp tp typeName conf variants fieldCode methodCode imports s =
    generateField_loop (silenced env) fp tp typeName conf variants fieldCode methodCode imports s.
Proof.
  induction variants as [|[templateName bag] rest IH]; intros fieldCode methodCode imports s;
    simpl; [reflexivity|].
  destruct (GetPropertyTemplate env templateName) as [err|pt]; [reflexivity|].
  destruct (Parse env templateName (Trim (FieldTemplate pt) spaceTab)) as [err|tmpl];
    [reflexivity|].
  apply bind_ext; [reflexivity|]. intros ftn s1.
  destruct (Parse env templateName (MethodTemplate pt)) as [err|tmpl']; [reflexivity|].
  apply IH.
Qed.

Lemma generateField_silenced fp tp typeConf conf s :
  generateField env fp tp typeConf conf s = generateField (silenced env) fp tp typeConf conf s.
Proof.
  unfold generateField. apply bind_ext; [reflexivity|]. intros typeName s1.
  apply bind_ext; [reflexivity|]. intros variants s2. apply generateField_loop_silenced.
Qed.

Lemma generateType_fields_silenced ifields tp typeConf conf :
  ∀ fields methods imports s,
    generateType_fields env ifields tp typeConf conf fields methods imports s =
    generateType_fields (silenced env) ifields tp typeConf conf fields methods imports s.
Proof.
  induction ifields as [|fp rest IH]; intros fields methods imports s; simpl; [reflexivity|].
  apply bind_ext; [intros s1; apply generateField_silenced|].
  intros [[[fc mc] fi] [err|]] s1; [reflexivity | apply IH].
Qed.

Lemma generateType_loop_silenced tp name typeConf conf variants :
  ∀ buf s,
    generateType_loop env tp name typeConf conf variants buf s =
    generateType_loop (silenced env) tp name typeConf conf variants buf s.
Proof.
  induction variants as [|[templateName bag] rest IH]; intros buf s; simpl; [reflexivity|].
  destruct (GetTypeTemplate env templateName) as [err|tt]; [reflexivity|].
  destruct (Parse env templateName (Trim (TypeTemplateText tt) spaceTab)) as [err|tmpl];
    [reflexivity|].
  apply bind_ext; [reflexivity|]. intros ifields s1.
  apply bind_ext; [intros s2; apply generateType_fields_silenced|].
  intros [[[fs ms] imps] [err|]] s2; [reflexivity|].
  apply bind_ext; [reflexivity|]. intros pts s3. apply IH.
Qed.

Lemma generateType_silenced tp conf s :
  generateType env tp conf s = generateType (silenced env) tp conf s.
Proof.
  unfold generateType. apply bind_ext; [reflexivity|]. intros name s1.
  apply bind_ext; [reflexivity|]. intros variants s2. apply generateType_loop_silenced.
Qed.

Lemma Generate_silenced schema conf s :
  Generate env schema conf s = Generate (silenced env) schema conf s.
Proof.
  unfold Generate. simpl. destruct (ParseSchema env schema) as [err|types]; [reflexivity|].
  generalize (∅ : gmap string string) as results. revert s.
  induction types as [|qlType rest IH]; intros s results; simpl; [reflexivity|].
  apply bind_ext; [reflexivity|]. intros name s1.
  destruct (HasPrefix name "_"); [apply IH|].
  destruct (ignore (default _ (internalTypeConfig !! name))); [apply IH|].
  destruct (unsupportedKind (Kind qlType)); [apply IH|].
  apply bind_ext; [intros s2; apply generateType_silenced|].
  intros [code [err|]] s2; [reflexivity | apply IH].
Qed.

(** *** Entities of an unsupported kind *)

Lemma Generate_loop_keeps_unsupported types conf :
  ∀ results s m e s',
    Generate_loop env types conf results s = Some ((Some m, e), s') →
    (∀ k, is_Some (results !! k) → is_Some (m !! k)) ∧
    (∀ tp name, tp ∈ types → passesFilters tp name → unsupportedKind (Kind tp) = true →
       is_Some (m !! fileNameOf name)).
Proof.
  induction types as [|qlType rest IH]; intros results s m e s' E; simpl in E.
  - injection E as <- <- <-. split; [auto|]. intros tp name H. inversion H.
  - unfold bind, deref in E. destruct (Name qlType) as [name|] eqn:En; [|discriminate E].
    assert (K : ∀ results' s0,
              Generate_loop env rest conf results' s0 = Some ((Some m, e), s') →
              (∀ k, is_Some (results !! k) → is_Some (results' !! k)) →
              (passesFilters qlType name → unsupportedKind (Kind qlType) = true →
                 is_Some (results' !! fileNameOf name)) →
              (∀ k, is_Some (results !! k) → is_Some (m !! k)) ∧
              (∀ tp name, tp ∈ qlType :: rest → passesFilters tp name →
                 unsupportedKind (Kind tp) = true → is_Some (m !! fileNameOf name))).
    { intros results' s0 E' Hsub Hhere. apply IH in E' as [H1 H2]. split; [auto|].
      intros tp nm Hin Hf Hk. apply elem_of_cons in Hin as [->|Hin]; [|eauto].
      assert (nm = name) as -> by (destruct Hf as [Hf _]; congruence).
      apply H1, Hhere; assumption. }
    destruct (HasPrefix name "_") eqn:Ep.
    { apply (K _ _ E); [auto|]. intros (_ & Hp & _). congruence. }
    destruct (ignore (default _ (internalTypeConfig !! name))) eqn:Ei.
    { apply (K _ _ E); [auto|]. intros (_ & _ & Hi). congruence. }
    destruct (unsupportedKind (Kind qlType)) eqn:Ek.
    { apply (K _ _ E).
      - intros k Hk. rewrite lookup_insert. case_decide; eauto.
      - intros _ _. rewrite lookup_insert_eq. eauto. }
    destruct (generateType env qlType conf s) as [[[code [err|]] s1]|]; try discriminate E.
    apply (K _ _ E).
    + intros k Hk. rewrite lookup_insert. case_decide; eauto.
    + intros _ Hk. discriminate Hk.
Qed.

End GeneratorFacts.


(** ** The generator on concrete schemas *)

(** C1: for the schema of one ENUM entity Status the run raises no error,
    and the mapping it returns has the entry status_gen.go, holding the empty
    text: line 97 stores the artifact after the switch for every kind. *)
Theorem unsupported_kind_gets_empty_artifact :
  entries (Generate env "enum Status { ON OFF }" noConf [])
    = Some (Some [("status_gen.go", "")], None).
Proof. vm_compute. reflexivity. Qed.

(** C3: the entity template of the variant broken, configured for Post,
    writes its literal text and then fails at execution time on the field of
    a string; Generate still returns a mapping, holding the text written
    before the failure, and no error: the result of Execute is dropped at
    lines 156, 198 and 212. *)
Theorem execute_error_is_dropped :
  GetTypeTemplate env "broken" = inr (mkTypeTemplate "package gen {{.TypeName.Missing}}") ∧
  (∃ tmpl,
     Parse env "broken" (Trim "package gen {{.TypeName.Missing}}" spaceTab) = inr tmpl ∧
     Execute env tmpl
       (typeContext (object "Post" []) "Post" (confFor "Post" ["broken"]) [] [] [] [])
       = ("package gen ", Some "template: can't evaluate field Missing in type string")) ∧
  entries (Generate env "type Post { }" (confFor "Post" ["broken"]) [])
    = Some (Some [("post_gen.go", "package gen ")], None).
Proof.
  split; [reflexivity|]. split; [|vm_compute; reflexivity].
  eexists. split; vm_compute; reflexivity.
Qed.


(** C5 as stated fails: the runs over Post and over User fail with one and
    the same error value, so the error cannot tell which entity is at fault. *)
Lemma errors_do_not_locate_entity : ¬ errorsLocateEntity env.
Proof.
  intros [locate H].
  assert (P : locate "template not found: nope" = "Post").
  { apply (H "type Post { }" confNope [] (object "Post" []) "Post" _ []);
      vm_compute; reflexivity. }
  assert (U : locate "template not found: nope" = "User").
  { apply (H "type User { }" confNope [] (object "User" []) "User" _ []);
      vm_compute; reflexivity. }
  rewrite P in U. discriminate U.
Qed.

Lemma errors_come_from_collaborators_witness :
  (None : option (gmap string string)) = None ∧
  collaboratorError env "template not found: nope".
Proof.
  apply (errors_come_from_collaborators env "type Post { }" confNope [] None
           "template not found: nope" []).
  vm_compute. reflexivity.
Defined.

(** C6 as stated fails: with the variants a and b configured for Post, one
    order of map iteration gives the text AB and the other BA. *)
Lemma variant_order_changes_text :
  entries (Generate env "type Post { }" (confFor "Post" ["a"; "b"]) [0])
    = Some (Some [("post_gen.go", "AB")], None) ∧
  entries (Generate env "type Post { }" (confFor "Post" ["a"; "b"]) [1])
    = Some (Some [("post_gen.go", "BA")], None) ∧
  ¬ (∀ s1 s2, fst <$> Generate env "type Post { }" (confFor "Post" ["a"; "b"]) s1
              = fst <$> Generate env "type Post { }" (confFor "Post" ["a"; "b"]) s2).
Proof.
  split; [vm_compute; reflexivity|]. split; [vm_compute; reflexivity|].
  intros H. specialize (H [0] [1]). vm_compute in H. discriminate H.
Qed.

Lemma single_variant_runs_agree_witness :
  fst <$> Generate env "type Post { }" (confFor "Post" ["a"]) [0]
  = fst <$> Generate env "type Post { }" (confFor "Post" ["a"]) [1].
Proof.
  apply (single_variant_runs_agree env "type Post { }" (confFor "Post" ["a"])).
  intros name typeConf H. unfold confFor in H. simpl in H.
  rewrite lookup_insert in H. case_decide; [|rewrite lookup_empty in H; discriminate H].
  injection H as <-. split; [vm_compute; lia|].
  intros f propConf Hf. simpl in Hf. rewrite lookup_empty in Hf. discriminate Hf.
Defined.

Lemma default_variant_rendered_witness :
  generateType env (object "Post" postFields) noConf [3] = Some (("Post", None), []) ∧
  generateField env (mkField "tags" None (listOf (nonNull tString))) (object "Post" postFields)
      config.zeroTypeConfig noConf [3]
    = Some (("*[]string", "tags", [""], None), []).
Proof.
  split.
  - rewrite (proj1 (default_variant_rendered env) (object "Post" postFields) noConf "Post" [3]);
      [vm_compute; reflexivity | reflexivity | reflexivity].
  - rewrite (proj2 (default_variant_rendered env)
               (mkField "tags" None (listOf (nonNull tString))) (object "Post" postFields)
               config.zeroTypeConfig noConf "Post" [3]);
      [vm_compute; reflexivity | reflexivity | reflexivity].
Defined.

Lemma removeDuplicates_once_witness :
  ∃ l, typeContext (object "Post" postFields) "Post" noConf []
         ["graphql.ID"; "*[]string"; "*graphql.ID"] ["id"; "tags"; "author"]
         [importPath (mkTypeConfig true "graphql.ID"
                        ("graphql " +:+ dquote +:+ "github.com/neelance/graphql-go" +:+ dquote));
          "";
          importPath (mkTypeConfig true "graphql.ID"
                        ("graphql " +:+ dquote +:+ "github.com/neelance/graphql-go" +:+ dquote))]
         !! "Imports" = Some (DStrings l) ∧
       count_occ string_dec l
         (importPath (mkTypeConfig true "graphql.ID"
                        ("graphql " +:+ dquote +:+ "github.com/neelance/graphql-go" +:+ dquote)))
         = 1.
Proof.
  apply (proj2 (proj2 (proj2 (proj2 (removeDuplicates_once env))))
           postFields (object "Post" postFields) "Post" config.zeroTypeConfig noConf []
           [] _ _ _ [] (mkField "author" None tID) "ID").
  - vm_compute. reflexivity.
  - unfold postFields. do 2 apply list_elem_of_further. apply list_elem_of_here.
  - apply base_here. reflexivity.
  - vm_compute. reflexivity.
Defined.

Lemma getImports_empty_string_entry_witness :
  getImports (listOf (nonNull tString)) = [""] ∧
  ∃ l, typeContext (object "Post" postFields) "Post" noConf []
         ["graphql.ID"; "*[]string"; "*graphql.ID"] ["id"; "tags"; "author"]
         [importPath (mkTypeConfig true "graphql.ID"
                        ("graphql " +:+ dquote +:+ "github.com/neelance/graphql-go" +:+ dquote));
          "";
          importPath (mkTypeConfig true "graphql.ID"
                        ("graphql " +:+ dquote +:+ "github.com/neelance/graphql-go" +:+ dquote))]
         !! "Imports" = Some (DStrings l) ∧ "" ∈ l.
Proof.
  assert (B : baseName (listOf (nonNull tString)) "String").
  { eapply base_inner; [reflexivity | reflexivity |].
    eapply base_inner; [reflexivity | reflexivity |].
    apply base_here. reflexivity. }
  assert (S : "String" ∈ noImportScalars).
  { unfold noImportScalars. do 4 apply list_elem_of_further. apply list_elem_of_here. }
  split.
  - exact (proj1 (getImports_empty_string_entry env) _ _ B S).
  - apply (proj2 (getImports_empty_string_entry env)
             postFields (object "Post" postFields) "Post" config.zeroTypeConfig noConf []
             [] _ _ _ [] (mkField "tags" None (listOf (nonNull tString))) "String").
    + vm_compute. reflexivity.
    + unfold postFields. apply list_elem_of_further. apply list_elem_of_here.
    + exact B.
    + exact S.
Defined.

(** * Further properties *)

(** ** getTypeName over wrapper stacks *)

Lemma getTypeName_listStage_acc t typ :
  getTypeName_listStage t typ = (λ s, typ +:+ s) <$> getTypeName_listStage t "".
Proof.
  unfold getTypeName_listStage. destruct (Kind t =? "LIST").
  - destruct (OfType t) as [t2|]; [|reflexivity].
    rewrite (getTypeName_check_acc t2 (typ +:+ "[]")), (getTypeName_check_acc t2 ("" +:+ "[]")).
    now rewrite fmap_prefix_compose.
  - apply getTypeName_base_acc.
Qed.

Lemma endsNonNull_cons w w' ws : endsNonNull (w :: w' :: ws) = endsNonNull (w' :: ws).
Proof. reflexivity. Qed.

(** Peeling a proper stack ends at the base type: in the second half of a
    round when the innermost layer is NON_NULL, at the NON_NULL test
    otherwise. *)
Lemma getTypeName_check_wrap t :
  ∀ n ws, (length ws ≤ n)%nat → properStack ws = true →
    ∀ typ, getTypeName_check (wrap ws t) typ =
             if endsNonNull ws
             then getTypeName_listStage t (typ +:+ stackMarkers ws)
             else getTypeName_check t (typ +:+ stackMarkers ws).
Proof.
  induction n as [|n IH]; intros ws Hlen Hp typ.
  - destruct ws; [|simpl in Hlen; lia]. simpl. now rewrite append_nil_r.
  - destruct ws as [|[|] rest].
    + simpl. now rewrite append_nil_r.
    + change (wrap (ListLayer :: rest) t) with (listOf (wrap rest t)).
      rewrite getTypeName_listOf.
      rewrite (IH rest) by (simpl in *; try lia; exact Hp).
      assert (E : endsNonNull (ListLayer :: rest) = endsNonNull rest)
        by (destruct rest; reflexivity).
      rewrite E. change (stackMarkers (ListLayer :: rest)) with ("*[]" +:+ stackMarkers rest).
      now rewrite append_assoc.
    + destruct rest as [|[|] rest'].
      * change (wrap [NonNullLayer] t) with (nonNull t).
        rewrite getTypeName_check_unfold. simpl. now rewrite append_nil_r.
      * change (wrap (NonNullLayer :: ListLayer :: rest') t)
          with (nonNull (listOf (wrap rest' t))).
        rewrite getTypeName_nonNull_listOf.
        rewrite (IH rest') by (simpl in *; try lia; exact Hp).
        assert (E : endsNonNull (NonNullLayer :: ListLayer :: rest') = endsNonNull rest')
          by (destruct rest'; reflexivity).
        rewrite E.
        change (stackMarkers (NonNullLayer :: ListLayer :: rest'))
          with ("[]" +:+ stackMarkers rest').
        now rewrite append_assoc.
      * simpl in Hp. discriminate Hp.
Qed.

(** X1: the type expression of a proper wrapper stack around a named type
    that is no wrapper is the stack's markers, a star unless the innermost
    layer is NON_NULL, and the expression of the base type. *)
Theorem getTypeName_of_stack ws b n :
  properStack ws = true → isWrapper (Kind b) = false → Name b = Some n →
  getTypeName (wrap ws b) =
    Some (stackMarkers ws +:+ (if endsNonNull ws then "" else "*") +:+ baseExpression n).
Proof.
  intros Hp Hk Hn. apply isWrapper_false in Hk as [HL HN].
  unfold getTypeName. rewrite (getTypeName_check_wrap b (length ws) ws (le_n _) Hp).
  assert (B : ∀ typ, getTypeName_base (Name b) typ = Some (typ +:+ baseExpression n)).
  { intros typ. rewrite Hn. unfold getTypeName_base, baseExpression.
    destruct (internalTypeConfig !! n); reflexivity. }
  destruct (endsNonNull ws).
  - unfold getTypeName_listStage. rewrite HL, B. reflexivity.
  - rewrite getTypeName_check_unfold, HN. unfold getTypeName_listStage. rewrite HL, B.
    now rewrite append_assoc.
Qed.

Lemma getTypeName_of_stack_witness :
  getTypeName (wrap [NonNullLayer; ListLayer; ListLayer; NonNullLayer] (named "OBJECT" "Post"))
    = Some ("[]*[]" +:+ "" +:+ "PostResolver").
Proof.
  apply (getTypeName_of_stack [NonNullLayer; ListLayer; ListLayer; NonNullLayer]
           (named "OBJECT" "Post") "Post"); reflexivity.
Defined.

(** X2: a NON_NULL layer on a type that is not itself NON_NULL removes
    exactly the leading star of that type's expression; both fail
    together. *)
Theorem getTypeName_nonNull_drops_star t :
  Kind t ≠ "NON_NULL" →
  getTypeName t = (λ s, "*" +:+ s) <$> getTypeName (nonNull t).
Proof.
  intros Hk. apply String.eqb_neq in Hk. unfold getTypeName.
  rewrite (getTypeName_check_unfold t), Hk.
  rewrite (getTypeName_check_unfold (nonNull t)). simpl.
  apply getTypeName_listStage_acc.
Qed.

Lemma getTypeName_nonNull_drops_star_witness :
  getTypeName (listOf tString) = (λ s, "*" +:+ s) <$> getTypeName (nonNull (listOf tString)).
Proof. apply (getTypeName_nonNull_drops_star (listOf tString)). discriminate. Defined.

(** X3: on a field whose type has no list layer (a named type, or NON_NULL
    of a named type) getTypeName is getPointer applied to the expression of
    the named type. *)
Theorem getPointer_agrees_with_getTypeName (fp : Field Type_) b n :
  isWrapper (Kind b) = false → Name b = Some n →
  FType fp = b ∨ FType fp = nonNull b →
  getTypeName (FType fp) = Some (getPointer (baseExpression n) fp).
Proof.
  intros Hk Hn Hf. pose proof (isWrapper_false _ Hk) as [HL HN]. unfold getPointer.
  destruct Hf as [-> | ->].
  - rewrite HN. apply (getTypeName_of_stack [] b n); [reflexivity | exact Hk | exact Hn].
  - apply (getTypeName_of_stack [NonNullLayer] b n); [reflexivity | exact Hk | exact Hn].
Qed.

Lemma getPointer_agrees_with_getTypeName_witness :
  getTypeName (FType (mkField "id" None (nonNull tID)))
    = Some (getPointer (baseExpression "ID") (mkField "id" None (nonNull tID))).
Proof.
  apply (getPointer_agrees_with_getTypeName (mkField "id" None (nonNull tID)) tID "ID");
    [reflexivity | reflexivity | right; reflexivity].
Defined.

(** X4: a wrapper whose inner type is absent makes getTypeName panic, also
    under any proper stack of further layers: a LIST always, a NON_NULL
    unless it sits directly under another NON_NULL. *)
Theorem getTypeName_absent_inner_panics ws t :
  properStack ws = true → OfType t = None →
  Kind t = "LIST" ∨ (Kind t = "NON_NULL" ∧ endsNonNull ws = false) →
  getTypeName (wrap ws t) = None.
Proof.
  intros Hp Ho Hk. unfold getTypeName.
  rewrite (getTypeName_check_wrap t (length ws) ws (le_n _) Hp).
  destruct Hk as [Hk | [Hk ->]].
  - assert (S2 : ∀ typ, getTypeName_listStage t typ = None).
    { intros typ. unfold getTypeName_listStage. now rewrite Hk, Ho. }
    destruct (endsNonNull ws); [apply S2|].
    rewrite getTypeName_check_unfold, Hk. apply S2.
  - rewrite getTypeName_check_unfold, Hk, Ho. reflexivity.
Qed.

Lemma getTypeName_absent_inner_panics_witness :
  getTypeName (wrap [NonNullLayer] (mkType "LIST" None None None None None)) = None.
Proof.
  apply (getTypeName_absent_inner_panics [NonNullLayer] (mkType "LIST" None None None None None));
    [reflexivity | reflexivity | left; reflexivity].
Defined.

(** ** getImports *)

Lemma getImports_wrap ws t : getImports (wrap ws t) = getImports t.
Proof. induction ws as [|[|] rest IH]; simpl; [reflexivity | exact IH | exact IH]. Qed.

(** X5: getImports looks through every wrapper layer, whatever the stack,
    and a named type outside the scalar table that has no inner type (an
    object, interface or custom scalar) needs no import. *)
Theorem getImports_sees_only_the_base :
  (∀ ws t, getImports (wrap ws t) = getImports t) ∧
  (∀ ws b n, Name b = Some n → internalTypeConfig !! n = None → OfType b = None →
     getImports (wrap ws b) = []).
Proof.
  split; [exact getImports_wrap|].
  intros ws b n Hn Ht Ho. rewrite getImports_wrap.
  destruct b as [k nm d o f p]. simpl in *. subst. now rewrite Ht.
Qed.

Lemma getImports_sees_only_the_base_witness :
  getImports (wrap [ListLayer; NonNullLayer] (named "OBJECT" "Post")) = [].
Proof.
  apply (proj2 getImports_sees_only_the_base [ListLayer; NonNullLayer]
           (named "OBJECT" "Post") "Post"); reflexivity.
Defined.

(** X6: getImports never answers more than one import path. *)
Theorem getImports_at_most_one t : (length (getImports t) ≤ 1)%nat.
Proof.
  induction t as [t IH] using Type_ofType_ind.
  destruct t as [k n d o f p]. simpl in *.
  destruct (match n with Some name => internalTypeConfig !! name | None => None end);
    [simpl; lia|].
  destruct o as [inner|]; [apply (IH inner eq_refl) | simpl; lia].
Qed.

(** ** removeDuplicates *)

Lemma removeDuplicates_nil : removeDuplicates [] = [].
Proof. reflexivity. Qed.

Lemma removeDuplicates_of_NoDup a : NoDup a → removeDuplicates a = a.
Proof.
  induction a as [|x a IH] using rev_ind; intros ND; [reflexivity|].
  apply NoDup_app in ND as (ND & Hx & _).
  rewrite removeDuplicates_snoc, (IH ND). rewrite decide_False; [reflexivity|].
  intros Hin. apply (Hx x Hin). apply list_elem_of_here.
Qed.

(** X7: removeDuplicates leaves a list without repeats as it is, and
    applying it twice is the same as applying it once. *)
Theorem removeDuplicates_idempotent :
  (∀ a, NoDup a → removeDuplicates a = a) ∧
  (∀ a, removeDuplicates (removeDuplicates a) = removeDuplicates a).
Proof.
  split; [exact removeDuplicates_of_NoDup|].
  intros a. apply removeDuplicates_of_NoDup, removeDuplicates_NoDup.
Qed.

Lemma removeDuplicates_idempotent_witness :
  removeDuplicates ["b"; "a"; ""] = ["b"; "a"; ""].
Proof.
  apply (proj1 removeDuplicates_idempotent ["b"; "a"; ""]).
  apply (bool_decide_unpack _). vm_compute. exact I.
Defined.

(** X8: removing duplicates from a concatenation keeps the first list's
    result and appends what the second list adds: its deduplicated strings
    that do not occur in the first list. *)
Theorem removeDuplicates_app a b :
  removeDuplicates (a ++ b) =
    (removeDuplicates a ++ filter (λ x, x ∉ a) (removeDuplicates b))%list.
Proof.
  induction b as [|x b IH] using rev_ind.
  - rewrite app_nil_r. simpl. now rewrite app_nil_r.
  - rewrite app_assoc, !removeDuplicates_snoc, IH.
    destruct (decide (x ∈ b)) as [Hb|Hb].
    + rewrite decide_True by (apply elem_of_app; now right). reflexivity.
    + rewrite filter_app. destruct (decide (x ∈ a)) as [Ha|Ha].
      * rewrite decide_True by (apply elem_of_app; now left).
        rewrite filter_cons_False by (intros H; now apply H). simpl.
        now rewrite app_nil_r.
      * rewrite decide_False by (rewrite elem_of_app; tauto).
        rewrite filter_cons_True by exact Ha. simpl. now rewrite app_assoc.
Qed.

(** X9: removeDuplicates only drops strings: its result is a subsequence of
    its input, so the strings kept stay in their order, and it is not
    longer than the input. *)
Theorem removeDuplicates_sublist a :
  removeDuplicates a `sublist_of` a ∧ (length (removeDuplicates a) ≤ length a)%nat.
Proof.
  assert (S : removeDuplicates a `sublist_of` a).
  { induction a as [|x a IH] using rev_ind; [reflexivity|].
    rewrite removeDuplicates_snoc. case_decide.
    - now apply sublist_inserts_r.
    - now apply sublist_app. }
  split; [exact S | now apply sublist_length].
Qed.

(** ** Naming Transform *)

Lemma upperAscii_lowerAscii c : upperAscii (lowerAscii c) = upperAscii c.
Proof. destruct c as [[] [] [] [] [] [] [] []]; vm_compute; reflexivity. Qed.

Lemma lowerAscii_upperAscii c : lowerAscii (upperAscii c) = lowerAscii c.
Proof. destruct c as [[] [] [] [] [] [] [] []]; vm_compute; reflexivity. Qed.

Lemma upperAscii_idempotent c : upperAscii (upperAscii c) = upperAscii c.
Proof. destruct c as [[] [] [] [] [] [] [] []]; vm_compute; reflexivity. Qed.

Lemma lowerAscii_idempotent c : lowerAscii (lowerAscii c) = lowerAscii c.
Proof. destruct c as [[] [] [] [] [] [] [] []]; vm_compute; reflexivity. Qed.

Lemma ToLower_length s : String.length (ToLower s) = String.length s.
Proof. induction s as [|c r IH]; simpl; [reflexivity | now rewrite IH]. Qed.

Lemma capitalise_cons c rest :
  (ToLower (String c rest) =? "id") = false →
  capitalise (String c rest) = Some (String (upperAscii c) rest).
Proof. intros H. unfold capitalise. rewrite H. reflexivity. Qed.

Lemma capitalise_id s : (ToLower s =? "id") = true → capitalise s = Some "ID".
Proof. intros H. unfold capitalise. now rewrite H. Qed.

Lemma unCapitalise_cons c rest :
  unCapitalise (String c rest) = Some (String (lowerAscii c) rest).
Proof. reflexivity. Qed.

(** X10: capitalise and unCapitalise panic on the empty string and on no
    other; on an ASCII string they answer a string of the same length. *)
Theorem naming_transform_empty_and_length :
  (∀ s, capitalise s = None ↔ s = "") ∧
  (∀ s, unCapitalise s = None ↔ s = "") ∧
  (∀ s r, isAscii s = true → capitalise s = Some r → String.length r = String.length s) ∧
  (∀ s r, isAscii s = true → unCapitalise s = Some r → String.length r = String.length s).
Proof.
  repeat split.
  - unfold capitalise. destruct (ToLower s =? "id"); [discriminate|].
    destruct s; [reflexivity | discriminate].
  - intros ->. reflexivity.
  - destruct s; [reflexivity | discriminate].
  - intros ->. reflexivity.
  - intros s r _ E. destruct (ToLower s =? "id") eqn:Eid.
    + rewrite (capitalise_id s Eid) in E. injection E as <-.
      apply String.eqb_eq in Eid. rewrite <- (ToLower_length s), Eid. reflexivity.
    + destruct s as [|c rest]; [discriminate E|].
      rewrite (capitalise_cons c rest Eid) in E. now injection E as <-.
  - intros s r _ E. destruct s as [|c rest]; [discriminate E|].
    rewrite unCapitalise_cons in E. now injection E as <-.
Qed.

Lemma naming_transform_empty_and_length_witness :
  String.length "PostTitle" = String.length "postTitle" ∧
  String.length "postTitle" = String.length "PostTitle".
Proof.
  split.
  - apply (proj1 (proj2 (proj2 naming_transform_empty_and_length)) "postTitle" "PostTitle");
      reflexivity.
  - apply (proj2 (proj2 (proj2 naming_transform_empty_and_length)) "PostTitle" "postTitle");
      reflexivity.
Defined.

(** X11: on ASCII strings capitalise is idempotent, and it undoes
    unCapitalise as far as itself is concerned: capitalising an
    uncapitalised string gives what capitalising the original gives. *)
Theorem capitalise_absorbs :
  (∀ s r, isAscii s = true → capitalise s = Some r → capitalise r = Some r) ∧
  (∀ s u, isAscii s = true → unCapitalise s = Some u → capitalise u = capitalise s).
Proof.
  split.
  - intros s r _ E. destruct (ToLower s =? "id") eqn:Eid.
    + rewrite (capitalise_id s Eid) in E. injection E as <-. reflexivity.
    + destruct s as [|c rest]; [discriminate E|].
      rewrite (capitalise_cons c rest Eid) in E. injection E as <-.
      rewrite capitalise_cons.
      * now rewrite upperAscii_idempotent.
      * simpl. rewrite lowerAscii_upperAscii. exact Eid.
  - intros s u _ E. destruct s as [|c rest]; [discriminate E|].
    rewrite unCapitalise_cons in E. injection E as <-.
    assert (L : ToLower (String (lowerAscii c) rest) = ToLower (String c rest))
      by (simpl; now rewrite lowerAscii_idempotent).
    unfold capitalise. rewrite L. destruct (ToLower (String c rest) =? "id"); [reflexivity|].
    change (ToUpper (String (lowerAscii c) "")) with (String (upperAscii (lowerAscii c)) "").
    now rewrite upperAscii_lowerAscii.
Qed.

Lemma capitalise_absorbs_witness :
  capitalise "Title" = Some "Title" ∧ capitalise "title" = capitalise "Title".
Proof.
  split.
  - apply (proj1 capitalise_absorbs "title" "Title"); reflexivity.
  - apply (proj2 capitalise_absorbs "Title" "title"); reflexivity.
Defined.

(** X12: uncapitalising a capitalised ASCII string gives the uncapitalised
    original, except for the strings that lowercase to id: those are
    capitalised to ID and come back as iD. *)
Theorem unCapitalise_after_capitalise s r :
  isAscii s = true → capitalise s = Some r →
  unCapitalise r = if ToLower s =? "id" then Some "iD" else unCapitalise s.
Proof.
  intros _ E. destruct (ToLower s =? "id") eqn:Eid.
  - rewrite (capitalise_id s Eid) in E. injection E as <-. reflexivity.
  - destruct s as [|c rest]; [discriminate E|].
    rewrite (capitalise_cons c rest Eid) in E. injection E as <-.
    rewrite !unCapitalise_cons. now rewrite lowerAscii_upperAscii.
Qed.

Lemma unCapitalise_after_capitalise_witness :
  unCapitalise "ID" = (if ToLower "id" =? "id" then Some "iD" else unCapitalise "id") ∧
  unCapitalise "Name" = (if ToLower "name" =? "id" then Some "iD" else unCapitalise "name").
Proof.
  split.
  - apply (unCapitalise_after_capitalise "id" "ID"); reflexivity.
  - apply (unCapitalise_after_capitalise "name" "Name"); reflexivity.
Defined.

(** ** The renderers and the driver *)

Section GeneratorMore.
Context {Value Template : Type}.
Variable env : @Collaborators Value Template.

(** *** Field Renderer *)

Lemma generateField_loop_error_is_bare fp tp typeName conf variants :
  ∀ fieldCode methodCode imports,
    post (generateField_loop env fp tp typeName conf variants fieldCode methodCode imports)
      (λ r, ∀ e, snd r = Some e → r = ("", "", [], Some e)).
Proof.
  induction variants as [|[templateName bag] rest IH]; intros fieldCode methodCode imports;
    simpl.
  - apply post_ret. simpl. intros e H. discriminate H.
  - destruct (GetPropertyTemplate env templateName) as [err|pt].
    { apply post_ret. simpl. now intros e [= <-]. }
    destruct (Parse env templateName (Trim (FieldTemplate pt) spaceTab)) as [err|tmpl].
    { apply post_ret. simpl. now intros e [= <-]. }
    apply post_bind_any. intros ftn.
    destruct (Parse env templateName (MethodTemplate pt)) as [err|tmpl'].
    { apply post_ret. simpl. now intros e [= <-]. }
    apply IH.
Qed.

(** X17: when generateField returns an error it returns nothing else: both
    fragments are empty and there are no imports, whatever earlier variants
    had already rendered. *)
Theorem generateField_error_is_bare fp tp typeConf conf s fc mc imps e s' :
  generateField env fp tp typeConf conf s = Some ((fc, mc, imps, Some e), s') →
  fc = "" ∧ mc = "" ∧ imps = [].
Proof.
  intros E.
  assert (P : post (generateField env fp tp typeConf conf)
                (λ r, ∀ e, snd r = Some e → r = ("", "", [], Some e))).
  { unfold generateField. apply post_bind_any. intros typeName.
    apply post_bind_any. intros variants. apply generateField_loop_error_is_bare. }
  specialize (P s). rewrite E in P. specialize (P e eq_refl).
  injection P as -> -> ->. auto.
Qed.

(** X18: a field's imports are collected once per rendered variant: on
    success generateField answers the field's import list repeated as many
    times as the normalised configuration has variants. *)
Theorem generateField_imports_per_variant fp tp typeConf conf s fc mc imps s' :
  generateField env fp tp typeConf conf s = Some ((fc, mc, imps, None), s') →
  imps = concat (replicate
           (size (withDefault (config.PropTemplate
              (default config.zeroFieldConfig (config.Field typeConf !! FName fp)))))
           (getImports (FType fp))).
Proof.
  unfold generateField, bind, deref. destruct (Name tp) as [typeName|]; [|discriminate].
  set (t := withDefault _). intros E.
  assert (∃ seed s0, generateField_loop env fp tp typeName conf (shuffle seed (map_to_list t))
                       "" "" [] s0 = Some ((fc, mc, imps, None), s')) as (seed & s0 & E').
  { unfold range in E. destruct s as [|seed s0]; eauto. }
  apply generateField_loop_imports in E'. subst imps.
  now rewrite shuffle_length, length_map_to_list.
Qed.

(** *** Type Renderer *)

Lemma generateType_fields_lengths ifields tp typeConf conf :
  ∀ fields methods imports s fs ms imps s',
    generateType_fields env ifields tp typeConf conf fields methods imports s
      = Some ((fs, ms, imps, None), s') →
    length fs = (length fields + length ifields)%nat ∧
    length ms = (length methods + length ifields)%nat.
Proof.
  induction ifields as [|fp rest IH]; intros fields methods imports s fs ms imps s' E;
    simpl in E.
  - injection E as <- <- <- <-. simpl. lia.
  - unfold bind in E.
    destruct (generateField env fp tp typeConf conf s) as [[[[[fc mc] fi] [err|]] s1]|];
      try discriminate E.
    apply IH in E as [E1 E2]. rewrite length_app in E1, E2. simpl in *. lia.
Qed.

(** X19: when the field loop of generateType succeeds it hands the entity
    template one declaration fragment and one method fragment per field of
    the entity. *)
Theorem generateType_fields_one_fragment_per_field ifields tp typeConf conf s fs ms imps s' :
  generateType_fields env ifields tp typeConf conf [] [] [] s = Some ((fs, ms, imps, None), s') →
  length fs = length ifields ∧ length ms = length ifields.
Proof. intros E. apply generateType_fields_lengths in E. simpl in E. exact E. Qed.

Lemma possibleTypeNames_mapM l s :
  possibleTypeNames l s = (λ ns, (ns, s)) <$> mapM Name l.
Proof.
  induction l as [|t rest IH]; [reflexivity|].
  simpl. unfold bind, deref. destruct (Name t) as [n|]; [|reflexivity].
  rewrite IH. simpl. destruct (mapM Name rest); reflexivity.
Qed.

(** X20: collecting the names of the possible types panics exactly when one
    of them has no name; otherwise it answers their names in order and
    leaves the random source alone. *)
Theorem possibleTypeNames_in_order l s :
  (possibleTypeNames l s = None ↔ ∃ t, t ∈ l ∧ Name t = None) ∧
  (∀ ns s', possibleTypeNames l s = Some (ns, s') → Name <$> l = Some <$> ns ∧ s' = s).
Proof.
  rewrite possibleTypeNames_mapM. split.
  - destruct (mapM Name l) as [ns|] eqn:E; simpl.
    + split; [discriminate|]. intros (t & Hin & Hn).
      assert (S : is_Some (mapM Name l)) by eauto.
      apply mapM_is_Some in S. rewrite Forall_forall in S.
      destruct (S t Hin) as [n Hn']. congruence.
    + split; [|reflexivity]. intros _.
      destruct (decide (Forall (λ t, is_Some (Name t)) l)) as [F|F].
      * apply mapM_is_Some in F. rewrite E in F. destruct F as [? F]. discriminate F.
      * apply not_Forall_Exists in F; [|intros t; apply _].
        apply Exists_exists in F as (t & Hin & Hn). exists t. split; [exact Hin|].
        destruct (Name t) eqn:En; [exfalso; apply Hn; rewrite En; eauto | reflexivity].
  - intros ns s' E. destruct (mapM Name l) as [ns0|] eqn:EM; [|discriminate E].
    simpl in E. injection E as <- <-. split; [|reflexivity].
    apply mapM_Some in EM. clear -EM.
    induction EM as [|t n l ns H _ IH]; [reflexivity|].
    rewrite !fmap_cons, H. f_equal. exact IH.
Qed.

Lemma possibleTypeNames_in_order_witness :
  Name <$> [named "OBJECT" "Cat"; named "OBJECT" "Dog"] = Some <$> ["Cat"; "Dog"] ∧
  [7] = [7].
Proof.
  apply (proj2 (possibleTypeNames_in_order [named "OBJECT" "Cat"; named "OBJECT" "Dog"] [7])
           ["Cat"; "Dog"] [7]).
  reflexivity.
Defined.

(** X21: an entity for which the schema view answers no field list makes
    generateType panic as soon as one of its template variants has been
    looked up and parsed: line 133 dereferences the nil list. *)
Theorem generateType_without_fields_panics tp name conf :
  Name tp = Some name → Fields tp = None →
  (∀ v bag,
     withDefault (config.Template
       (default config.zeroTypeConfig (config.Types conf !! name))) !! v = Some bag →
     ∃ tt tmpl, GetTypeTemplate env v = inr tt ∧
                Parse env v (Trim (TypeTemplateText tt) spaceTab) = inr tmpl) →
  ∀ s, generateType env tp conf s = None.
Proof.
  intros Hn Hf Hok s. unfold generateType, bind, deref. rewrite Hn. simpl.
  set (t := withDefault _) in *.
  assert (L : ∀ l, l ≡ₚ map_to_list t → ∀ s0,
            generateType_loop env tp name
              (config.mkTypeConfig t
                 (config.Field (default config.zeroTypeConfig (config.Types conf !! name))))
              conf l "" s0 = None).
  { intros l Hl s0. destruct l as [|[v bag] rest].
    - apply Permutation_length in Hl. rewrite length_map_to_list in Hl. simpl in Hl.
      pose proof (withDefault_size
        (config.Template (default config.zeroTypeConfig (config.Types conf !! name)))).
      fold t in H. lia.
    - assert (Hv : t !! v = Some bag).
      { apply elem_of_map_to_list. rewrite <- Hl. apply list_elem_of_here. }
      destruct (Hok v bag Hv) as (tt & tmpl & E1 & E2).
      simpl. rewrite E1, E2. unfold bind, deref. now rewrite Hf. }
  unfold range. destruct s as [|seed s0]; apply L, shuffle_Permutation.
Qed.

(** *** Generation Driver *)

Lemma Generate_loop_key_origin types conf :
  ∀ results s m e s',
    Generate_loop env types conf results s = Some ((Some m, e), s') →
    e = None ∧
    ∀ k, is_Some (m !! k) →
      is_Some (results !! k) ∨
      ∃ tp name, tp ∈ types ∧ passesFilters tp name ∧ k = fileNameOf name.
Proof.
  induction types as [|qlType rest IH]; intros results s m e s' E; simpl in E.
  - injection E as <- <- <-. auto.
  - unfold bind, deref in E. destruct (Name qlType) as [name|] eqn:En; [|discriminate E].
    assert (K : ∀ results' s0,
              Generate_loop env rest conf results' s0 = Some ((Some m, e), s') →
              (∀ k, is_Some (results' !! k) →
                 is_Some (results !! k) ∨
                 (passesFilters qlType name ∧ k = fileNameOf name)) →
              e = None ∧
              ∀ k, is_Some (m !! k) →
                is_Some (results !! k) ∨
                ∃ tp name, tp ∈ qlType :: rest ∧ passesFilters tp name ∧ k = fileNameOf name).
    { intros results' s0 E' Hsub. apply IH in E' as [-> H]. split; [reflexivity|].
      intros k Hk. destruct (H k Hk) as [Hr | (tp & nm & Hin & Hf & ->)].
      - destruct (Hsub k Hr) as [?|[Hf ->]]; [now left|].
        right. exists qlType, name. split; [apply list_elem_of_here | auto].
      - right. exists tp, nm. split; [now apply list_elem_of_further | auto]. }
    destruct (HasPrefix name "_") eqn:Ep; [apply (K _ _ E); auto|].
    destruct (ignore (default _ (internalTypeConfig !! name))) eqn:Ei; [apply (K _ _ E); auto|].
    assert (Hpass : passesFilters qlType name) by (repeat split; assumption).
    assert (Hins : ∀ code k, is_Some (<[fileNameOf name := code]> results !! k) →
              is_Some (results !! k) ∨ (passesFilters qlType name ∧ k = fileNameOf name)).
    { intros code k Hk. rewrite lookup_insert in Hk. case_decide; [right|left]; auto. }
    destruct (unsupportedKind (Kind qlType)); [apply (K _ _ E), Hins|].
    destruct (generateType env qlType conf s) as [[[code [err|]] s1]|]; try discriminate E.
    apply (K _ _ E), Hins.
Qed.

(** X13: a mapping Generate returns comes with no error, and every filename
    in it is the derived filename of an entity of the catalogue whose name
    has no underscore prefix and is not a skip-generation scalar. *)
Theorem Generate_keys_come_from_entities schema conf types s m e s' :
  ParseSchema env schema = inr types →
  Generate env schema conf s = Some ((Some m, e), s') →
  e = None ∧
  ∀ k, is_Some (m !! k) →
    ∃ tp name, tp ∈ types ∧ passesFilters tp name ∧ k = fileNameOf name.
Proof.
  intros HP E. unfold Generate in E. rewrite HP in E.
  apply Generate_loop_key_origin in E as [-> H]. split; [reflexivity|].
  intros k Hk. destruct (H k Hk) as [Hr|Hr]; [|exact Hr].
  rewrite lookup_empty in Hr. destruct Hr as [? Hr]. discriminate Hr.
Qed.

Lemma Generate_loop_nothing_rendered types conf :
  Forall notRendered types →
  ∀ results s, ∃ m,
    Generate_loop env types conf results s = Some ((Some m, None), s) ∧
    ∀ k v, m !! k = Some v → results !! k = Some v ∨ v = "".
Proof.
  induction 1 as [|tp rest (name & Hn & Hc) _ IH]; intros results s; simpl.
  - exists results. auto.
  - unfold bind, deref. rewrite Hn.
    destruct (HasPrefix name "_") eqn:Ep; [apply IH|].
    destruct (ignore (default _ (internalTypeConfig !! name))) eqn:Ei; [apply IH|].
    destruct Hc as [Hc|[Hc|Hc]]; try discriminate Hc. rewrite Hc.
    destruct (IH (<[fileNameOf name := ""]> results) s) as (m & E & H).
    exists m. split; [exact E|]. intros k v Hk.
    destruct (H k v Hk) as [Hr| ->]; [|now right].
    rewrite lookup_insert in Hr. case_decide; [right; congruence | now left].
Qed.

(** X14: when every entity of the catalogue is named and is internal, a
    skip-generation scalar or of an unsupported kind, Generate succeeds
    without calling a template or the formatter and without iterating a map:
    it returns a mapping whose texts are all empty, and no error. *)
Theorem Generate_nothing_rendered schema conf types s :
  ParseSchema env schema = inr types → Forall notRendered types →
  ∃ m, Generate env schema conf s = Some ((Some m, None), s) ∧
       ∀ k v, m !! k = Some v → v = "".
Proof.
  intros HP HF. unfold Generate. rewrite HP.
  destruct (Generate_loop_nothing_rendered types conf HF ∅ s) as (m & E & H).
  exists m. split; [exact E|]. intros k v Hk.
  destruct (H k v Hk) as [Hr|Hr]; [|exact Hr]. rewrite lookup_empty in Hr. discriminate Hr.
Qed.

(** The loop over a concatenated catalogue is the loop over the first part
    followed, if that ended without error, by the loop over the second part
    on the mapping built so far. *)
Lemma Generate_loop_app types1 types2 conf :
  ∀ results s,
    Generate_loop env (types1 ++ types2) conf results s =
      match Generate_loop env types1 conf results s with
      | Some ((Some m, None), s1) => Generate_loop env types2 conf m s1
      | r => r
      end.
Proof.
  induction types1 as [|qlType rest IH]; intros results s; [reflexivity|].
  simpl. unfold bind, deref. destruct (Name qlType) as [name|]; [|reflexivity].
  destruct (HasPrefix name "_"); [apply IH|].
  destruct (ignore (default _ (internalTypeConfig !! name))); [apply IH|].
  destruct (unsupportedKind (Kind qlType)); [apply IH|].
  destruct (generateType env qlType conf s) as [[[code [err|]] s1]|]; try reflexivity.
  apply IH.
Qed.

(** X15: last write wins.  When the last entity of the catalogue is rendered
    without error, its text is stored under its filename over whatever an
    earlier entity had stored there, so it is the text found under the
    filename of every name that differs from its own only in letter case;
    all other entries stay as the earlier entities left them. *)
Theorem Generate_last_write_wins schema conf types tp name s m0 s0 code s1 :
  ParseSchema env schema = inr (types ++ [tp])%list →
  Generate_loop env types conf ∅ s = Some ((Some m0, None), s0) →
  passesFilters tp name → unsupportedKind (Kind tp) = false →
  generateType env tp conf s0 = Some ((code, None), s1) →
  ∃ m, Generate env schema conf s = Some ((Some m, None), s1) ∧
       (∀ name0, ToLower name0 = ToLower name → m !! fileNameOf name0 = Some code) ∧
       (∀ k, k ≠ fileNameOf name → m !! k = m0 !! k).
Proof.
  intros HP E0 (Hn & Hp & Hi) Hk Eg.
  exists (<[fileNameOf name := code]> m0). split; [|split].
  - unfold Generate. rewrite HP, Generate_loop_app, E0. simpl.
    unfold bind, deref. rewrite Hn, Hp, Hi, Hk, Eg. reflexivity.
  - intros name0 Hl. unfold fileNameOf. rewrite Hl. apply lookup_insert_eq.
  - intros k Hne. now apply lookup_insert_ne.
Qed.

(** X16: fail fast.  When the entities before [tp] are processed without
    error and the Type Renderer answers an error for [tp], Generate returns
    that error with a nil mapping; the entities after [tp] are not looked
    at, whatever they are. *)
Theorem Generate_stops_at_first_error schema conf pre tp rest name s m0 s0 code e s1 :
  ParseSchema env schema = inr (pre ++ tp :: rest)%list →
  Generate_loop env pre conf ∅ s = Some ((Some m0, None), s0) →
  passesFilters tp name → unsupportedKind (Kind tp) = false →
  generateType env tp conf s0 = Some ((code, Some e), s1) →
  Generate env schema conf s = Some ((None, Some e), s1).
Proof.
  intros HP E0 (Hn & Hp & Hi) Hk Eg.
  unfold Generate. rewrite HP, Generate_loop_app, E0. simpl.
  unfold bind, deref. rewrite Hn, Hp, Hi, Hk, Eg. reflexivity.
Qed.

(** X22: the error a template execution answers never reaches the caller,
    at none of the three call sites: with every execution error erased
    Generate does exactly what it does with the errors in place. *)
Theorem execution_errors_never_surface schema conf s :
  Generate env schema conf s = Generate (silenced env) schema conf s.
Proof. apply Generate_silenced. Qed.

End GeneratorMore.

(** ** Witnesses on the fixtures *)

Lemma generateType_without_fields_panics_witness :
  generateType Fixtures.env (named "SCALAR" "Time") noConf [] = None.
Proof.
  apply (generateType_without_fields_panics Fixtures.env (named "SCALAR" "Time") "Time" noConf);
    [reflexivity | reflexivity |].
  intros v bag H. change (<["default" := ∅]> (∅ : gmap string (gmap string string)) !! v = Some bag) in H.
  rewrite lookup_insert in H. case_decide as E; [|rewrite lookup_empty in H; discriminate H].
  subst v. eexists _, _. split; reflexivity.
Defined.

Lemma generateField_error_is_bare_witness :
  "" = "" ∧ "" = "" ∧ ([] : list string) = [].
Proof.
  apply (generateField_error_is_bare env (mkField "id" None (nonNull tID))
           (object "Post" postFields) typeConfIdNope noConf [1] "" "" []
           "template not found: nope" []).
  vm_compute. reflexivity.
Defined.

Lemma generateField_imports_per_variant_witness :
  getImports tID =
    concat (replicate
      (size (withDefault (config.PropTemplate
         (default config.zeroFieldConfig
            (config.Field (config.zeroTypeConfig (Value := string)) !! "author")))))
      (getImports (FType (mkField "author" None tID)))).
Proof.
  apply (generateField_imports_per_variant env (mkField "author" None tID)
           (object "Post" postFields) config.zeroTypeConfig noConf []
           "*graphql.ID" "author" (getImports tID) []).
  vm_compute. reflexivity.
Defined.

Lemma generateType_fields_one_fragment_per_field_witness :
  length ["graphql.ID"; "*[]string"; "*graphql.ID"] = length postFields ∧
  length ["id"; "tags"; "author"] = length postFields.
Proof.
  apply (generateType_fields_one_fragment_per_field env postFields (object "Post" postFields)
           config.zeroTypeConfig noConf [] _ _
           (getImports tID ++ getImports tString ++ getImports tID) []).
  vm_compute. reflexivity.
Defined.

Lemma Generate_keys_come_from_entities_witness :
  (None : option error) = None ∧
  ∀ k, is_Some ((<["post_gen.go" := "Post"]> ∅ : gmap string string) !! k) →
    ∃ tp name,
      tp ∈ [tBoolean; tID; object "Post" postFields; tString; named "OBJECT" "__Schema"] ∧
      passesFilters tp name ∧ k = fileNameOf name.
Proof.
  apply (Generate_keys_come_from_entities env
           "type Post { id: ID! tags: [String!] author: ID }" noConf _ [] _ None []).
  - reflexivity.
  - vm_compute. reflexivity.
Defined.

Lemma Generate_nothing_rendered_witness :
  ∃ m, Generate env "enum Status { ON OFF }" noConf [5] = Some ((Some m, None), [5]) ∧
       ∀ k v, m !! k = Some v → v = "".
Proof.
  apply (Generate_nothing_rendered env "enum Status { ON OFF }" noConf
           [tBoolean; tID; enum "Status"; tString; named "OBJECT" "__Schema"] [5]).
  - reflexivity.
  - assert (P : ∀ tp name, Name tp = Some name →
                 HasPrefix name "_"
                 || ignore (default (mkTypeConfig false "" "") (internalTypeConfig !! name))
                 || unsupportedKind (Kind tp) = true →
                 notRendered tp).
    { intros tp name Hn Hc. exists name. split; [exact Hn|].
      apply orb_true_iff in Hc as [Hc|Hc]; [apply orb_true_iff in Hc as [Hc|Hc]|]; auto. }
    apply Forall_cons. split; [apply (P _ "Boolean"); vm_compute; reflexivity|].
    apply Forall_cons. split; [apply (P _ "ID"); vm_compute; reflexivity|].
    apply Forall_cons. split; [apply (P _ "Status"); vm_compute; reflexivity|].
    apply Forall_cons. split; [apply (P _ "String"); vm_compute; reflexivity|].
    apply Forall_cons. split; [apply (P _ "__Schema"); vm_compute; reflexivity|].
    apply Forall_nil. exact I.
Defined.

Lemma Generate_last_write_wins_witness :
  ∃ m, Generate envCase "schema" noConf [] = Some ((Some m, None), []) ∧
       (∀ name0, ToLower name0 = ToLower "POST" → m !! fileNameOf name0 = Some "POST") ∧
       (∀ k, k ≠ fileNameOf "POST" →
          m !! k = (<["post_gen.go" := "Post"]> ∅ : gmap string string) !! k).
Proof.
  apply (Generate_last_write_wins envCase "schema" noConf [object "Post" []]
           (object "POST" []) "POST" [] _ [] "POST" []).
  - reflexivity.
  - vm_compute. reflexivity.
  - repeat split; reflexivity.
  - reflexivity.
  - vm_compute. reflexivity.
Defined.

Lemma Generate_stops_at_first_error_witness :
  Generate envCase "schema" confNope [] = Some ((None, Some "template not found: nope"), []).
Proof.
  apply (Generate_stops_at_first_error envCase "schema" confNope []
           (object "Post" []) [object "POST" []] "Post" [] ∅ [] "").
  - reflexivity.
  - reflexivity.
  - repeat split; reflexivity.
  - reflexivity.
  - vm_compute. reflexivity.
Defined.
